(** * console.py: the league statistics client

    A shallow embedding of [console.py] and the properties of its roster
    listing, statistics engine, head-to-head counter and query loop.

    Python values are modelled as follows.
    - [str] is a list of Unicode code points ([N]); the character classes
      used by [str.strip], [str.split], [str.isdigit] and [int] are the
      tables of the Unicode character database (version 14.0, the one of
      CPython 3.11).
    - Python integers are [Z].  [int] and [str] are taken without CPython's
      optional limit on the length of converted literals
      ([sys.set_int_max_str_digits(0)]).
    - Dictionaries are [gmap], sets are [gset]; the order in which a set is
      iterated is a parameter of the program.
    - The HTTP API is an oracle over an abstract world; printing appends to
      a trace; exceptions are an explicit result. *)

From Stdlib Require Import ZArith NArith Ascii String Decimal DecimalString.
From stdpp Require Import base numbers option list sorting gmap.

Local Open Scope Z_scope.

(** ** Strings *)

Module Str.

(** A character is its code point. *)
Abbreviation char := N.
Abbreviation str := (list N).

(** Literals: the code points of an ASCII string. *)
Definition u (s : string) : str :=
  (λ a, N_of_ascii a) <$> list_ascii_of_string s.

(** Ranges [(lo, hi)] of the characters with [str.isspace] true. *)
Definition whitespace_table : list (N * N) :=
  [ (9, 13); (28, 32); (133, 133); (160, 160); (5760, 5760); (8192, 8202);
    (8232, 8233); (8239, 8239); (8287, 8287); (12288, 12288) ]%N.

Definition in_range (c : char) (r : N * N) : bool :=
  (r.1 <=? c)%N && (c <=? r.2)%N.

Definition isspace (c : char) : bool := existsb (in_range c) whitespace_table.

(** The zero of each block of ten decimal digits (general category Nd). *)
Definition decimal_zeros : list N :=
  [ 48; 1632; 1776; 1984; 2406; 2534; 2662; 2790; 2918; 3046; 3174; 3302;
    3430; 3558; 3664; 3792; 3872; 4160; 4240; 6112; 6160; 6470; 6608; 6784;
    6800; 6992; 7088; 7232; 7248; 42528; 43216; 43264; 43472; 43504; 43600;
    44016; 65296; 66720; 68912; 69734; 69872; 69942; 70096; 70384; 70736;
    70864; 71248; 71360; 71472; 71904; 72016; 72784; 73040; 73120; 92768;
    92864; 93008; 120782; 120792; 120802; 120812; 120822; 123200; 123632;
    125264; 130032 ]%N.

(** Digits that are not decimal (superscripts, circled digits, ...):
    [(first, count, value of the first)]. *)
Definition digit_table : list (N * N * N) :=
  [ (178, 2, 2); (185, 1, 1); (4969, 9, 1); (6618, 1, 1); (8304, 1, 0);
    (8308, 6, 4); (8320, 10, 0); (9312, 9, 1); (9332, 9, 1); (9352, 9, 1);
    (9450, 1, 0); (9461, 9, 1); (9471, 1, 0); (10102, 9, 1); (10112, 9, 1);
    (10122, 9, 1); (68160, 4, 1); (69216, 9, 1); (69714, 9, 1);
    (127232, 1, 0); (127233, 10, 0) ]%N.

Fixpoint decimal_in (zs : list N) (c : char) : option N :=
  match zs with
  | [] => None
  | z :: zs' =>
      if (z <=? c)%N && (c <? z + 10)%N then Some (c - z)%N
      else decimal_in zs' c
  end.

(** [unicodedata.decimal]: the value of a decimal digit. *)
Definition decimal_value (c : char) : option N := decimal_in decimal_zeros c.

Fixpoint digit_in (t : list (N * N * N)) (c : char) : option N :=
  match t with
  | [] => None
  | (first, count, v) :: t' =>
      if (first <=? c)%N && (c <? first + count)%N then Some (v + (c - first))%N
      else digit_in t' c
  end.

(** [unicodedata.digit]: every decimal is a digit. *)
Definition digit_value (c : char) : option N :=
  match decimal_value c with
  | Some v => Some v
  | None => digit_in digit_table c
  end.

Definition is_some {A} (o : option A) : bool :=
  match o with Some _ => true | None => false end.

Definition nonempty {A} (l : list A) : bool :=
  match l with [] => false | _ :: _ => true end.

(** [s.isdigit()]: at least one character, all of them digits. *)
Definition isdigit (s : str) : bool :=
  nonempty s && forallb (λ c, is_some (digit_value c)) s.

(** [s.isdecimal()]. *)
Definition isdecimal (s : str) : bool :=
  nonempty s && forallb (λ c, is_some (decimal_value c)) s.

(** [s.lstrip()], [s.rstrip()], [s.strip()]. *)
Fixpoint lstrip (s : str) : str :=
  match s with
  | [] => []
  | c :: r => if isspace c then lstrip r else s
  end.

Fixpoint rstrip (s : str) : str :=
  match s with
  | [] => []
  | c :: r =>
      match rstrip r with
      | [] => if isspace c then [] else [c]
      | r' => c :: r'
      end
  end.

Definition strip (s : str) : str := rstrip (lstrip s).

(** [s.split()]: the maximal runs of characters that are not whitespace.
    [cur] is the run being read, if any. *)
Fixpoint split_from (cur : option str) (s : str) : list str :=
  match s with
  | [] => match cur with Some t => [t] | None => [] end
  | c :: r =>
      if isspace c then
        match cur with
        | Some t => t :: split_from None r
        | None => split_from None r
        end
      else split_from (Some (default [] cur ++ [c])) r
  end.

Definition split (s : str) : list str := split_from None s.

(** [s.startswith(p)]. *)
Fixpoint startswith (s p : str) {struct p} : bool :=
  match p, s with
  | [], _ => true
  | _ :: _, [] => false
  | a :: p', b :: s' => (a =? b)%N && startswith s' p'
  end.

(** [sep.join(parts)]. *)
Fixpoint join (sep : str) (parts : list str) : str :=
  match parts with
  | [] => []
  | [p] => p
  | p :: ps => p ++ sep ++ join sep ps
  end.

(** Decimal digits of a number, most significant first. *)
Fixpoint uint_chars (d : Decimal.uint) : str :=
  match d with
  | Nil => []
  | D0 d' => 48%N :: uint_chars d'
  | D1 d' => 49%N :: uint_chars d'
  | D2 d' => 50%N :: uint_chars d'
  | D3 d' => 51%N :: uint_chars d'
  | D4 d' => 52%N :: uint_chars d'
  | D5 d' => 53%N :: uint_chars d'
  | D6 d' => 54%N :: uint_chars d'
  | D7 d' => 55%N :: uint_chars d'
  | D8 d' => 56%N :: uint_chars d'
  | D9 d' => 57%N :: uint_chars d'
  end.

Definition minus_sign : char := 45%N.
Definition plus_sign : char := 43%N.

(** [str(n)] and [f"{n}"] for an integer. *)
Definition str_of_int (n : Z) : str :=
  if n <? 0 then minus_sign :: uint_chars (N.to_uint (Z.abs_N n))
  else uint_chars (N.to_uint (Z.abs_N n)).

(** [f"{n:+d}"]: the sign is always written. *)
Definition format_signed (n : Z) : str :=
  if n <? 0 then minus_sign :: uint_chars (N.to_uint (Z.abs_N n))
  else plus_sign :: uint_chars (N.to_uint (Z.abs_N n)).

(** The order of [<=] on strings: lexicographic by code point. *)
Fixpoint str_leb (a b : str) : bool :=
  match a, b with
  | [], _ => true
  | _ :: _, [] => false
  | x :: a', y :: b' => (x <? y)%N || ((x =? y)%N && str_leb a' b')
  end.

Definition str_le (a b : str) : Prop := str_leb a b = true.

End Str.
Export Str.

(** ** shlex.split

    [shlex.split(s)] runs a [shlex] lexer in POSIX mode with
    [whitespace_split] set and no comment characters, and lists the tokens
    it yields.  [lex_state] is the lexer's [state] attribute. *)

Module Shlex.

Inductive lex_state :=
| InWhitespace            (* state == ' ' *)
| InWord                  (* state == 'a' *)
| InQuote (q : char)      (* state in quotes *)
| InEscape (e : char).    (* state in escape *)

(** [whitespace]: space, tab, carriage return, line feed. *)
Definition is_whitespace (c : char) : bool :=
  (c =? 32)%N || (c =? 9)%N || (c =? 13)%N || (c =? 10)%N.
(** [quotes]: the single and the double quote. *)
Definition is_quote (c : char) : bool :=
  (c =? 39)%N || (c =? 34)%N.
(** [escape]: the backslash. *)
Definition is_escape (c : char) : bool := (c =? 92)%N.
(** [escapedquotes]: the double quote. *)
Definition is_escapedquote (c : char) : bool := (c =? 34)%N.

Definition state_in_quotes (s : lex_state) : bool :=
  match s with InQuote _ => true | _ => false end.

Definition state_is (s : lex_state) (c : char) : bool :=
  match s with InQuote q => (q =? c)%N | InEscape e => (e =? c)%N | _ => false end.

(** The end of [read_token]: an empty unquoted token is the end-of-file
    marker [None]. *)
Definition finish_token (quoted : bool) (token : str) : option str :=
  if negb quoted && negb (nonempty token) then None else Some token.

Inductive lex_error := NoClosingQuotation | NoEscapedCharacter.

(** A token yielded before the rest of the run; an error later in the
    input is the error of the whole call. *)
Definition yield (t : str) (r : lex_error + list str) : lex_error + list str :=
  match r with inl e => inl e | inr ts => inr (t :: ts) end.

(** The lexer run over the whole input.  [state] persists between calls of
    [read_token]; [escapedstate], [quoted] and [token] are reset at each
    call.  Where [read_token] breaks out of its loop, its result is yielded
    and the next call starts on the rest of the input; a [None] result ends
    the iteration. *)
Fixpoint tokens (state escapedstate : lex_state) (quoted : bool) (token : str)
    (input : str) : lex_error + list str :=
  match input with
  | [] =>
      match state with
      | InWhitespace | InWord =>
          (* state = None; the call after this one returns None *)
          inr (match finish_token quoted token with Some t => [t] | None => [] end)
      | InQuote _ => inl NoClosingQuotation
      | InEscape _ => inl NoEscapedCharacter
      end
  | nextchar :: rest =>
      match state with
      | InWhitespace =>
          if is_whitespace nextchar then
            if nonempty token || quoted then
              match finish_token quoted token with
              | Some t => yield t (tokens InWhitespace InWhitespace false [] rest)
              | None => inr []
              end
            else tokens InWhitespace escapedstate quoted token rest
          else if is_escape nextchar then
            tokens (InEscape nextchar) InWord quoted token rest
          else if is_quote nextchar then
            tokens (InQuote nextchar) escapedstate quoted token rest
          else
            (* a word character, or any other one since whitespace_split is set *)
            tokens InWord escapedstate quoted [nextchar] rest
      | InQuote q =>
          (* quoted = True *)
          if (nextchar =? q)%N then tokens InWord escapedstate true token rest
          else if is_escape nextchar && is_escapedquote q then
            tokens (InEscape nextchar) state true token rest
          else tokens state escapedstate true (token ++ [nextchar]) rest
      | InEscape e =>
          let token' :=
            if state_in_quotes escapedstate && negb (nextchar =? e)%N
               && negb (state_is escapedstate nextchar)
            then token ++ [e] else token in
          tokens escapedstate escapedstate quoted (token' ++ [nextchar]) rest
      | InWord =>
          if is_whitespace nextchar then
            if nonempty token || quoted then
              match finish_token quoted token with
              | Some t => yield t (tokens InWhitespace InWhitespace false [] rest)
              | None => inr []
              end
            else tokens InWhitespace escapedstate quoted token rest
          else if is_quote nextchar then
            tokens (InQuote nextchar) escapedstate quoted token rest
          else if is_escape nextchar then
            tokens (InEscape nextchar) InWord quoted token rest
          else tokens InWord escapedstate quoted (token ++ [nextchar]) rest
      end
  end.

Definition split (s : str) : lex_error + list str :=
  tokens InWhitespace InWhitespace false [] s.

End Shlex.

(** ** Records of the API *)

Record team := Team {
  t_id : Z;                        (* t['id'] *)
  t_name : str;                    (* t['name'] *)
  t_players : option (list Z)      (* t.get('players', []) *)
}.

Record player := Player {
  p_name : option str;             (* pl.get('name', '') *)
  p_surname : option str           (* pl.get('surname', '') *)
}.

Record game := Game {
  team1 : Z;
  team2 : Z;
  team1_score : Z;
  team2_score : Z
}.

Definition players_of (t : team) : list Z := default [] (t_players t).

(** ** compute_stats *)

(** One iteration of the loop over [matches]; the accumulator is
    [(wins, losses, goals_for, goals_against)]. *)
Definition stats_step (team_id : Z) (acc : Z * Z * Z * Z) (m : game)
    : Z * Z * Z * Z :=
  let '(wins, losses, goals_for, goals_against) := acc in
  let t1 := team1 m in let t2 := team2 m in
  let s1 := team1_score m in let s2 := team2_score m in
  if (t1 =? team_id) || (t2 =? team_id) then
    let '(gf, ga) := if t1 =? team_id then (s1, s2) else (s2, s1) in
    let goals_for := goals_for + gf in
    let goals_against := goals_against + ga in
    if gf >? ga then (wins + 1, losses, goals_for, goals_against)
    else if gf <? ga then (wins, losses + 1, goals_for, goals_against)
    else (wins, losses, goals_for, goals_against)
  else acc.

Definition compute_stats (matches : list game) (team_id : Z) : Z * Z * Z :=
  let '(wins, losses, goals_for, goals_against) :=
    foldl (stats_step team_id) (0, 0, 0, 0) matches in
  let diff := goals_for - goals_against in
  (wins, losses, diff).

(** ** The head-to-head count (the loop at the end of the versus? branch) *)

Definition count_step (t1 t2 : Z) (cnt : Z) (m : game) : Z :=
  if ((team1 m =? t1) && (team2 m =? t2)) || ((team1 m =? t2) && (team2 m =? t1))
  then cnt + 1 else cnt.

Definition count_matches (matches : list game) (t1 t2 : Z) : Z :=
  foldl (count_step t1 t2) 0 matches.

(** ** The indexes built by handle_queries *)

(** [{t['name']: t['id'] for t in teams}] *)
Definition build_team_map (teams : list team) : gmap str Z :=
  foldl (λ m t, <[t_name t := t_id t]> m) ∅ teams.

(** [for t in teams: for pid in t.get('players', []): player_team[pid] = t['id']] *)
Definition build_player_team (teams : list team) : gmap Z Z :=
  foldl (λ m t, foldl (λ m' pid, <[pid := t_id t]> m') m (players_of t)) ∅ teams.

(** ** Full names *)

Definition full_name (pl : player) : str :=
  let parts := [strip (default [] (p_name pl)); strip (default [] (p_surname pl))] in
  join (u " ") (filter (λ p, nonempty p = true) parts).

(** ** Effects: the API, the output streams, exceptions *)

Inductive exn :=
| HTTPError (msg : str)          (* requests.HTTPError, from raise_for_status *)
| RequestException (msg : str)   (* any other failure of the request *)
| ValueError
| IndexError
| SystemExit (code : Z).

(** [except Exception] catches everything but [SystemExit]. *)
Definition is_Exception (e : exn) : bool :=
  match e with SystemExit _ => false | _ => true end.

(** [except requests.HTTPError]. *)
Definition is_HTTPError (e : exn) : bool :=
  match e with HTTPError _ => true | _ => false end.

(** [str(e)] for the exceptions of a request. *)
Definition exn_str (e : exn) : str :=
  match e with
  | HTTPError msg | RequestException msg => msg
  | _ => []
  end.

Inductive event :=
| Stdout (line : str)
| Stderr (line : str).

(** What a request comes to: a decoded document, an error status, or a
    failure without a status (no connection, a time-out, a body that is
    not JSON). *)
Inductive fetch_result (A : Type) :=
| Fetched (a : A)
| StatusError (msg : str)
| RequestFailed (msg : str).
Arguments Fetched {A} a.
Arguments StatusError {A} msg.
Arguments RequestFailed {A} msg.

(** The API behind [base_url], as seen with the token of the run. *)
Record Api (World : Type) := {
  get_teams : World → fetch_result (list team) * World;
  get_matches : World → fetch_result (list game) * World;
  get_player : Z → World → fetch_result player * World
}.
Arguments get_teams {World} _ _.
Arguments get_matches {World} _ _.
Arguments get_player {World} _ _ _.

Record state (World : Type) := State {
  world : World;
  trace : list event
}.
Arguments State {World} _ _.
Arguments world {World} _.
Arguments trace {World} _.

Inductive result (A : Type) :=
| Return (a : A)
| Raise (e : exn).
Arguments Return {A} a.
Arguments Raise {A} e.

Definition M (World A : Type) : Type := state World → result A * state World.

Definition ret {World A} (a : A) : M World A := λ st, (Return a, st).

Definition raise {World A} (e : exn) : M World A := λ st, (Raise e, st).

Definition bind {World A B} (c : M World A) (k : A → M World B) : M World B :=
  λ st, match c st with
        | (Return a, st') => k a st'
        | (Raise e, st') => (Raise e, st')
        end.

Notation "'let!' x ':=' c 'in' k" := (bind c (λ x, k))
  (at level 10, x name, c at level 100, k at level 200).
Notation "c '>>' k" := (bind c (λ _, k))
  (at level 65, right associativity).

(** [try: body  except <catches> as e: handler e] *)
Definition try_except {World A} (body : M World A) (catches : exn → bool)
    (handler : exn → M World A) : M World A :=
  λ st, match body st with
        | (Return a, st') => (Return a, st')
        | (Raise e, st') => if catches e then handler e st' else (Raise e, st')
        end.

Definition print {World} (line : str) : M World () :=
  λ st, (Return (), State (world st) (trace st ++ [Stdout line])).

Definition print_err {World} (line : str) : M World () :=
  λ st, (Return (), State (world st) (trace st ++ [Stderr line])).

(** [for x in xs: body x] *)
Fixpoint for_each {World A} (xs : list A) (body : A → M World ()) : M World () :=
  match xs with
  | [] => ret ()
  | x :: xs' => body x >> for_each xs' body
  end.

(** [fetch_json]: the request, [raise_for_status], the decoded body. *)
Definition fetch_json {World A} (request : World → fetch_result A * World)
    : M World A :=
  λ st, match request (world st) with
        | (Fetched a, w) => (Return a, State w (trace st))
        | (StatusError msg, w) => (Raise (HTTPError msg), State w (trace st))
        | (RequestFailed msg, w) => (Raise (RequestException msg), State w (trace st))
        end.

(** The value of a non-empty string of decimal digits, read in base ten. *)
Fixpoint digits_value (acc : Z) (s : str) : option Z :=
  match s with
  | [] => Some acc
  | c :: s' =>
      match decimal_value c with
      | Some d => digits_value (10 * acc + Z.of_N d) s'
      | None => None
      end
  end.

Definition int_of_str (s : str) : option Z :=
  if nonempty s then digits_value 0 s else None.

(** [int(s)] on a string that passed [isdigit] (so without sign, spaces or
    underscores): its value when every digit is decimal, [ValueError] on
    any other digit. *)
Definition py_int {World} (s : str) : M World Z :=
  match int_of_str s with
  | Some n => ret n
  | None => raise ValueError
  end.

Instance str_le_dec : RelDecision str_le.
Proof. intros a b. unfold str_le. apply _. Defined.

Section Program.

Context {World : Type}.
Variable api : Api World.
(** The order in which Python iterates a set of player ids, a set of names. *)
Variable iter_ids : gset Z → list Z.
Variable iter_names : gset str → list str.

Local Abbreviation M := (M World).

(** *** list_players *)

(** The ids of all players of all teams. *)
Definition collect_ids (teams : list team) : gset Z :=
  foldl (λ player_ids team,
           foldl (λ ids pid, {[pid]} ∪ ids) player_ids (players_of team))
        ∅ teams.

(** The loop over [player_ids]; [names] is the list built so far. *)
Fixpoint collect_names (pids : list Z) (names : list str) : M (list str) :=
  match pids with
  | [] => ret names
  | pid :: pids' =>
      let! fetched :=
        try_except (let! pl := fetch_json (get_player api pid) in ret (Some pl))
                   is_HTTPError (λ _, ret None) in
      match fetched with
      | None => collect_names pids' names                  (* continue *)
      | Some pl =>
          let full := full_name pl in
          if nonempty full then collect_names pids' (names ++ [full])
          else collect_names pids' names
      end
  end.

(** [sorted(set(names))] *)
Definition sorted_names (names : list str) : list str :=
  merge_sort str_le (iter_names (list_to_set names)).

Definition list_players : M (list team) :=
  let! teams := fetch_json (get_teams api) in
  let! names := collect_names (iter_ids (collect_ids teams)) [] in
  for_each (sorted_names names) print >>
  ret teams.

(** *** handle_queries *)

(** [shlex.split(rest)[0]] *)
Definition first_token (rest : str) : M str :=
  match Shlex.split rest with
  | inl _ => raise ValueError
  | inr [] => raise IndexError
  | inr (name :: _) => ret name
  end.

(** The loop [for pid in (p1, p2)] that checks that the players exist. *)
Fixpoint players_exist (pids : list Z) : M bool :=
  match pids with
  | [] => ret true
  | pid :: pids' =>
      let! found :=
        try_except (fetch_json (get_player api pid) >> ret true)
                   is_HTTPError (λ _, ret false) in
      if found then players_exist pids' else ret false    (* break *)
  end.

Section Queries.

Variable team_map : gmap str Z.
Variable player_team : gmap Z Z.
Variable matches : list game.

(** The stats? branch; [rest] is what follows the command. *)
Definition stats_query (rest : str) : M () :=
  let! parsed :=
    try_except (let! name := first_token rest in ret (Some name))
               is_Exception (λ _, print (u "0 0 0") >> ret None) in
  match parsed with
  | None => ret ()                                         (* continue *)
  | Some name =>
      match team_map !! name with
      | None => print (u "0 0 0")
      | Some tid =>
          let '(w, l, d) := compute_stats matches tid in
          let diff_str := format_signed d in
          print (str_of_int w ++ u " " ++ str_of_int l ++ u " " ++ diff_str)
      end
  end.

(** The versus? branch; [parts] are the words that follow the command. *)
Definition versus_query (parts : list str) : M () :=
  if negb (length parts =? 2)%nat || negb (forallb isdigit parts) then
    print (u "0")
  else
    match parts with
    | [a; b] =>
        let! p1 := py_int a in
        let! p2 := py_int b in
        let! exist := players_exist [p1; p2] in
        if negb exist then print (u "0")
        else
          match player_team !! p1, player_team !! p2 with
          | Some t1, Some t2 => print (str_of_int (count_matches matches t1 t2))
          | _, _ => print (u "0")
          end
    | _ => raise ValueError      (* unpacking; the test above excludes it *)
    end.

(** The body of the loop over the lines of standard input. *)
Definition handle_line (line : str) : M () :=
  let line := strip line in
  if negb (nonempty line) then ret ()                      (* continue *)
  else if startswith line (u "stats?") then
    let rest := strip (drop 6 line) in
    stats_query rest
  else if startswith line (u "versus?") then
    let parts := split (strip (drop 7 line)) in
    versus_query parts
  else print_err (u "Unrecognized query").

End Queries.

Definition handle_queries (teams : list team) (matches : list game)
    (stdin : list str) : M () :=
  let team_map := build_team_map teams in
  let player_team := build_player_team teams in
  for_each stdin (handle_line team_map player_team matches).

(** *** main *)

(** [args.token or os.getenv('LKSH_TOKEN')] *)
Definition token_of (arg_token env_token : option str) : option str :=
  match arg_token with
  | Some (c :: t) => Some (c :: t)
  | _ => env_token
  end.

Definition no_token_message : str :=
  u "Error: Authorization token not provided. Obtain a plain-token from tg@lksh_p_2025_bot and pass it via --token or LKSH_TOKEN environment variable.".

Definition main (arg_token env_token : option str) (stdin : list str) : M () :=
  match token_of arg_token env_token with
  | None | Some [] => print_err no_token_message >> raise (SystemExit 1)
  | Some _ =>
      let! matches :=
        try_except (fetch_json (get_matches api)) is_Exception
          (λ e, print_err (u "Failed to fetch matches: " ++ exn_str e) >>
                raise (SystemExit 1)) in
      let! teams :=
        try_except list_players is_Exception
          (λ e, print_err (u "Failed to list players: " ++ exn_str e) >>
                raise (SystemExit 1)) in
      handle_queries teams matches stdin
  end.

End Program.


(** ** The notions the properties are stated with *)

(** The team takes part in the match, as either side. *)
Definition participates (team_id : Z) (m : game) : bool :=
  (team1 m =? team_id) || (team2 m =? team_id).

(** The score of the team in a match it takes part in, and its opponent's. *)
Definition own_score (team_id : Z) (m : game) : Z :=
  if team1 m =? team_id then team1_score m else team2_score m.

Definition opponent_score (team_id : Z) (m : game) : Z :=
  if team1 m =? team_id then team2_score m else team1_score m.

Definition won (team_id : Z) (m : game) : bool :=
  participates team_id m && (opponent_score team_id m <? own_score team_id m).

Definition lost (team_id : Z) (m : game) : bool :=
  participates team_id m && (own_score team_id m <? opponent_score team_id m).

Definition drawn (team_id : Z) (m : game) : bool :=
  participates team_id m && (own_score team_id m =? opponent_score team_id m).

Definition count (f : game → bool) (matches : list game) : Z :=
  Z.of_nat (length (List.filter f matches)).

Definition total (l : list Z) : Z := foldr Z.add 0 l.

(** The goal difference of the matches the team takes part in. *)
Definition goal_difference (team_id : Z) (matches : list game) : Z :=
  total ((λ m, own_score team_id m - opponent_score team_id m)
         <$> List.filter (participates team_id) matches).

(** The unordered pair of the sides of a match is the pair [{a, b}]. *)
Definition between (a b : Z) (m : game) : bool :=
  ((team1 m =? a) && (team2 m =? b)) || ((team1 m =? b) && (team2 m =? a)).

(** The lexer holds a started token. *)
Definition started (state : Shlex.lex_state) (quoted : bool) (token : str) : Prop :=
  match state with
  | Shlex.InQuote _ | Shlex.InEscape _ => True
  | _ => nonempty token || quoted = true
  end.

(** The line printed for a stats? query, from the outcome of [shlex.split]. *)
Definition stats_reply (team_map : gmap str Z) (matches : list game)
    (tokens : Shlex.lex_error + list str) : str :=
  match tokens with
  | inr (name :: _) =>
      match team_map !! name with
      | Some tid =>
          let '(w, l, d) := compute_stats matches tid in
          str_of_int w ++ u " " ++ str_of_int l ++ u " " ++ format_signed d
      | None => u "0 0 0"
      end
  | _ => u "0 0 0"
  end.

(** The line printed for a versus? query whose two players exist. *)
Definition versus_reply (player_team : gmap Z Z) (matches : list game)
    (p1 p2 : Z) : str :=
  match player_team !! p1, player_team !! p2 with
  | Some t1, Some t2 => str_of_int (count_matches matches t1 t2)
  | _, _ => u "0"
  end.

(** The state after a line is printed on standard output. *)
Definition printed {World} (w : World) (st : state World) (line : str)
    : state World :=
  State w (trace st ++ [Stdout line]).

(** What a versus? query for the players [p1] and [p2] comes to: the first
    request, then the second one if the first found the player, then the
    line printed. *)
Definition versus_outcome {World} (api : Api World) (player_team : gmap Z Z)
    (matches : list game) (p1 p2 : Z) (st : state World)
    : result () * state World :=
  match get_player api p1 (world st) with
  | (Fetched _, w1) =>
      match get_player api p2 w1 with
      | (Fetched _, w2) =>
          (Return (), printed w2 st (versus_reply player_team matches p1 p2))
      | (StatusError _, w2) => (Return (), printed w2 st (u "0"))
      | (RequestFailed msg, w2) =>
          (Raise (RequestException msg), State w2 (trace st))
      end
  | (StatusError _, w1) => (Return (), printed w1 st (u "0"))
  | (RequestFailed msg, w1) => (Raise (RequestException msg), State w1 (trace st))
  end.


(** The players fetched by the roster loop started in world [w], in the
    order of the loop; a request that fails brings no player. *)
Fixpoint fetched_players {World} (api : Api World) (pids : list Z) (w : World)
    : list player :=
  match pids with
  | [] => []
  | pid :: pids' =>
      match get_player api pid w with
      | (Fetched pl, w') => pl :: fetched_players api pids' w'
      | (_, w') => fetched_players api pids' w'
      end
  end.

(** The full name as the specification words it: the trimmed name, one
    space, the trimmed surname, an empty part being left out. *)
Definition spec_full_name (name surname : str) : str :=
  match strip name, strip surname with
  | [], s => s
  | n, [] => n
  | n, s => n ++ u " " ++ s
  end.

(** The names the roster loop keeps: the full names that are not empty. *)
Definition names_of (players : list player) : list str :=
  List.filter nonempty (full_name <$> players).

(** A computation only appends to the trace. *)
Definition appends {World A} (c : M World A) : Prop :=
  ∀ st, ∃ later, trace (c st).2 = trace st ++ later.

(** No request for a player fails without a status. *)
Definition players_answer {World} (api : Api World) : Prop :=
  ∀ pid w, match get_player api pid w with
           | (RequestFailed _, _) => False
           | _ => True
           end.

(** ** A small league, for the examples *)

Module Sample.

Definition teams : list team :=
  [ Team 1 (u "Falcons") (Some [10; 11]);
    Team 2 (u "Hawks") (Some [12; 10; 13]);
    Team 3 (u "Old Boys") None ].

Definition matches : list game :=
  [ Game 1 2 3 1; Game 2 1 2 2; Game 3 1 0 4; Game 2 3 1 0; Game 2 2 5 5 ].

(** Player 13 is listed by a team but unknown to the API; the world counts
    the requests. *)
Definition lookup_player (pid : Z) : fetch_result player :=
  if pid =? 10 then Fetched (Player (Some (u "  Ann ")) (Some (u "Lee")))
  else if pid =? 11 then Fetched (Player (Some (u "Bob")) None)
  else if pid =? 12 then Fetched (Player (Some (u " ")) (Some (u "Ann Lee")))
  else if pid =? 14 then Fetched (Player None (Some (u "  ")))
  else StatusError (u "404 Client Error").

Definition api : Api nat := {|
  get_teams w := (Fetched teams, S w);
  get_matches w := (Fetched matches, S w);
  get_player pid w := (lookup_player pid, S w)
|}.


(** A league with a team whose name is the empty string. *)
Definition nameless_teams : list team :=
  [ Team 1 [] (Some [10]); Team 2 (u "Hawks") (Some [12]) ].

Definition start : state nat := State 0%nat [].

(** The characters used in the examples that are not ASCII letters. *)
Definition dquote : char := 34%N.
Definition superscript_two : char := 178%N.

End Sample.

(** ** Further notions *)

(** The line is one of the two queries. *)
Definition is_query (line : str) : bool :=
  startswith (strip line) (u "stats?") || startswith (strip line) (u "versus?").

(** The line is empty once stripped. *)
Definition is_blank (line : str) : bool := negb (nonempty (strip line)).

(** The event a handled line leaves: a reply on standard output for a
    query, the notice on the error stream for any other line. *)
Definition answers (line : str) (ev : event) : Prop :=
  if is_query line then ∃ reply, ev = Stdout reply
  else ev = Stderr (u "Unrecognized query").

(** The answer to a request for a player does not depend on the requests
    made before it. *)
Definition stateless {World} (api : Api World) : Prop :=
  ∀ pid w w', (get_player api pid w).1 = (get_player api pid w').1.

(** The three results of [compute_stats]. *)
Definition wins_of (matches : list game) (team_id : Z) : Z :=
  (compute_stats matches team_id).1.1.
Definition losses_of (matches : list game) (team_id : Z) : Z :=
  (compute_stats matches team_id).1.2.
Definition diff_of (matches : list game) (team_id : Z) : Z :=
  (compute_stats matches team_id).2.


(** * Properties *)

(** ** Strings *)

Example isspace_examples :
  (isspace 32, isspace 160, isspace 12288, isspace 8203, isspace 95)%N
  = (true, true, true, false, false).
Proof. reflexivity. Qed.

Example digit_examples :
  (digit_value 55, decimal_value 55, digit_value 178, decimal_value 178,
   decimal_value 1635, digit_value 9312, digit_value 188)%N
  = (Some 7, Some 7, Some 2, None, Some 3, Some 1, None)%N.
Proof. reflexivity. Qed.

Example strip_split_examples :
  strip ([32; 28; 32] ++ u "a" ++ [12288] ++ u "b " ++ [133])%N
    = (u "a" ++ [12288] ++ u "b")%N
  ∧ split ([32; 28; 32] ++ u "a" ++ [12288] ++ u "b " ++ [133])%N
    = [u "a"; u "b"]
  ∧ split (u "  10   11 ") = [u "10"; u "11"]
  ∧ split (u "") = [].
Proof. repeat split; reflexivity. Qed.

Example format_examples :
  (format_signed 0, format_signed (-3), format_signed 12, str_of_int 0,
   str_of_int (-40), str_of_int 205)
  = (u "+0", u "-3", u "+12", u "0", u "-40", u "205").
Proof. reflexivity. Qed.

Example shlex_examples :
  Shlex.split (u "") = inr []
  ∧ Shlex.split [Sample.dquote; Sample.dquote] = inr [[]]
  ∧ Shlex.split (u "Falcons extra") = inr [u "Falcons"; u "extra"]
  ∧ Shlex.split ([Sample.dquote] ++ u "Old Boys" ++ [Sample.dquote])
    = inr [u "Old Boys"]
  ∧ Shlex.split ([Sample.dquote] ++ u "Old Boys") = inl Shlex.NoClosingQuotation
  ∧ Shlex.split (u "Old" ++ [92%N]) = inl Shlex.NoEscapedCharacter
  ∧ Shlex.split (u "Old" ++ [92%N] ++ u " Boys") = inr [u "Old Boys"].
Proof. repeat split; reflexivity. Qed.

Section StringFacts.

Implicit Types (s pre : str) (c : char).

Lemma lstrip_app_spaces pre s :
  forallb isspace pre = true → lstrip (pre ++ s) = lstrip s.
Proof.
  induction pre as [|c pre IH]; simpl; [done|].
  intros [Hc Hpre]%andb_prop. rewrite Hc. auto.
Qed.

Lemma rstrip_cons_solid c s :
  isspace c = false → rstrip (c :: s) = c :: rstrip s.
Proof. intros Hc. simpl. rewrite Hc. by destruct (rstrip s). Qed.

Lemma rstrip_cons_space c s :
  isspace c = true →
  rstrip (c :: s) = match rstrip s with [] => [] | r => c :: r end.
Proof. intros Hc. simpl. by rewrite Hc. Qed.

Lemma rstrip_nil_iff s : rstrip s = [] ↔ forallb isspace s = true.
Proof.
  induction s as [|c s IH]; simpl; [done|].
  destruct (rstrip s) as [|x r] eqn:Hr, (isspace c) eqn:Hc; simpl.
  - rewrite <- IH. done.
  - done.
  - split; [done|]. intros H. apply IH in H. done.
  - done.
Qed.

Lemma rstrip_idemp s : rstrip (rstrip s) = rstrip s.
Proof.
  induction s as [|c s IH]; [done|].
  destruct (isspace c) eqn:Hc.
  - rewrite rstrip_cons_space by done.
    destruct (rstrip s) as [|x r] eqn:Hr; [done|].
    rewrite rstrip_cons_space by done. by rewrite IH.
  - rewrite !rstrip_cons_solid by done. by rewrite IH.
Qed.

Lemma lstrip_rstrip s : lstrip (rstrip s) = rstrip (lstrip s).
Proof.
  induction s as [|c s IH]; [done|].
  destruct (isspace c) eqn:Hc.
  - rewrite rstrip_cons_space by done. simpl lstrip at 2. rewrite Hc, <- IH.
    destruct (rstrip s) as [|x r] eqn:Hr; [done|]. simpl. by rewrite Hc.
  - rewrite rstrip_cons_solid by done. simpl. rewrite Hc.
    by rewrite rstrip_cons_solid.
Qed.

Lemma strip_rstrip s : strip (rstrip s) = strip s.
Proof. unfold strip. by rewrite lstrip_rstrip, rstrip_idemp. Qed.

Lemma strip_nil_iff s : strip s = [] ↔ forallb isspace s = true.
Proof.
  unfold strip. rewrite rstrip_nil_iff.
  induction s as [|c s IH]; simpl; [done|].
  destruct (isspace c) eqn:Hc; simpl; [done|]. by rewrite Hc.
Qed.

(** The text of a line that starts, after blanks, with a word of solid
    characters: the word, then the rest without its trailing blanks. *)
Lemma strip_command pre word s :
  forallb isspace pre = true →
  forallb (λ c, negb (isspace c)) word = true →
  word ≠ [] →
  strip (pre ++ word ++ s) = word ++ rstrip s.
Proof.
  intros Hpre Hword Hne. unfold strip. rewrite lstrip_app_spaces by done.
  destruct word as [|c word]; [done|]. simpl in Hword.
  apply andb_prop in Hword as [Hc Hword]. apply negb_true_iff in Hc.
  simpl lstrip. rewrite Hc. clear Hne.
  change (rstrip ((c :: word) ++ s) = (c :: word) ++ rstrip s).
  assert (Hall : forallb (λ c, negb (isspace c)) (c :: word) = true)
    by (simpl; by rewrite Hc, Hword).
  clear Hc Hword. induction (c :: word) as [|x w IH]; [done|].
  simpl in Hall. apply andb_prop in Hall as [Hx Hw]. apply negb_true_iff in Hx.
  change (rstrip (x :: (w ++ s)) = x :: (w ++ rstrip s)).
  rewrite rstrip_cons_solid by done. by rewrite IH.
Qed.

Lemma startswith_app p s : startswith (p ++ s) p = true.
Proof. induction p as [|c p IH]; simpl; [done|]. by rewrite N.eqb_refl. Qed.

Lemma startswith_inv s p :
  startswith s p = true → s = p ++ drop (length p) s.
Proof.
  revert s. induction p as [|c p IH]; intros [|x s]; simpl; try done.
  intros [Hc Hs]%andb_prop. apply N.eqb_eq in Hc. subst x.
  f_equal. by apply IH.
Qed.

Lemma split_from_rstrip cur s : split_from cur (rstrip s) = split_from cur s.
Proof.
  revert cur. induction s as [|c s IH]; intros cur; [done|].
  destruct (isspace c) eqn:Hc.
  - rewrite rstrip_cons_space by done. simpl split_from at 2. rewrite Hc.
    pose proof (IH None) as HN.
    destruct (rstrip s) as [|x r] eqn:Hr.
    + simpl in HN. rewrite <- HN. by destruct cur.
    + simpl split_from at 1. rewrite Hc. rewrite <- HN. by destruct cur.
  - rewrite rstrip_cons_solid by done. simpl. rewrite Hc. apply IH.
Qed.

Lemma split_from_lstrip s : split_from None (lstrip s) = split_from None s.
Proof.
  induction s as [|c s IH]; [done|]. simpl.
  destruct (isspace c) eqn:Hc; [done|]. simpl. by rewrite Hc.
Qed.

Lemma split_strip s : split (strip s) = split s.
Proof. unfold split, strip. by rewrite split_from_rstrip, split_from_lstrip. Qed.

(** What [strip] returns starts with a solid character. *)
Lemma strip_head c s r : strip s = c :: r → isspace c = false.
Proof.
  unfold strip. induction s as [|x s IH]; [done|].
  simpl lstrip. destruct (isspace x) eqn:Hx; [done|].
  rewrite rstrip_cons_solid by done. by intros [= <- _].
Qed.

End StringFacts.

(** ** shlex *)

Section ShlexFacts.

Import Shlex.

Lemma yield_not_empty t r : yield t r ≠ inr [].
Proof. by destruct r. Qed.

Lemma nonempty_app {A} (l : list A) x : nonempty (l ++ [x]) = true.
Proof. by destruct l. Qed.

Lemma tokens_started state es quoted token s :
  started state quoted token → tokens state es quoted token s ≠ inr [].
Proof.
  revert state es quoted token.
  induction s as [|c s IH]; intros state es quoted token Hst.
  - destruct state; simpl in *; try done.
    all: unfold finish_token; destruct quoted, token; simpl in *; done.
  - destruct state; simpl in Hst |- *.
    + rewrite Hst.
      destruct (is_whitespace c).
      { unfold finish_token.
        destruct quoted, token; simpl in *; try done; apply yield_not_empty. }
      destruct (is_escape c); [by apply IH|].
      destruct (is_quote c); [by apply IH|]. by apply IH.
    + rewrite Hst.
      destruct (is_whitespace c).
      { unfold finish_token.
        destruct quoted, token; simpl in *; try done; apply yield_not_empty. }
      destruct (is_quote c); [by apply IH|].
      destruct (is_escape c); [by apply IH|].
      apply IH. simpl. by rewrite nonempty_app.
    + destruct (c =? q)%N; [apply IH; simpl; apply orb_true_r|].
      destruct (is_escape c && is_escapedquote q); by apply IH.
    + apply IH. destruct es; simpl; try done; by rewrite nonempty_app.
Qed.

Lemma split_nil_iff s : Shlex.split s = inr [] ↔ forallb is_whitespace s = true.
Proof.
  unfold Shlex.split. induction s as [|c s IH]; simpl; [done|].
  destruct (is_whitespace c) eqn:Hc; simpl; [done|].
  split; [|done]. intros H. exfalso. revert H.
  destruct (is_escape c); [by apply tokens_started|].
  destruct (is_quote c); by apply tokens_started.
Qed.

Lemma is_whitespace_isspace c : is_whitespace c = true → isspace c = true.
Proof.
  unfold is_whitespace. rewrite !orb_true_iff, !N.eqb_eq.
  intros [[[->| ->]| ->]| ->]; reflexivity.
Qed.

(** A remainder of a line has no token exactly when it is empty. *)
Lemma split_strip_nil_iff s : Shlex.split (strip s) = inr [] ↔ strip s = [].
Proof.
  split; [|by intros ->].
  rewrite split_nil_iff. destruct (strip s) as [|c r] eqn:Hs; [done|].
  simpl. intros [Hc _]%andb_prop.
  apply is_whitespace_isspace in Hc. by rewrite (strip_head _ _ _ Hs) in Hc.
Qed.

End ShlexFacts.

(** ** The statistics engine *)

Section Engines.

Implicit Types (m : game) (ms matches : list game) (tid a b : Z).

(** Equal tuples of integers, component by component. *)
Ltac tuple_eq :=
  repeat match goal with |- (_, _) = (_, _) => f_equal end; try lia.

Lemma count_cons f m ms :
  count f (m :: ms) = (if f m then 1 else 0) + count f ms.
Proof. unfold count. simpl. destruct (f m); simpl length; lia. Qed.

Lemma count_nonneg f ms : 0 ≤ count f ms.
Proof. unfold count. lia. Qed.

Lemma goal_difference_cons tid m ms :
  goal_difference tid (m :: ms)
  = (if participates tid m then own_score tid m - opponent_score tid m else 0)
    + goal_difference tid ms.
Proof. unfold goal_difference. simpl. by destruct (participates tid m). Qed.

(** One iteration of the loop of [compute_stats]. *)
Lemma stats_step_eq tid m wins losses gf ga :
  ∃ gf' ga',
    stats_step tid (wins, losses, gf, ga) m
    = (wins + (if won tid m then 1 else 0),
       losses + (if lost tid m then 1 else 0), gf', ga')
    ∧ gf' - ga'
      = gf - ga
        + (if participates tid m then own_score tid m - opponent_score tid m
           else 0).
Proof.
  unfold stats_step, won, lost, participates, own_score, opponent_score.
  destruct (team1 m =? tid) eqn:H1; simpl.
  - destruct (Z.lt_trichotomy (team1_score m) (team2_score m)) as [H|[H|H]].
    + replace (team1_score m >? team2_score m) with false by lia.
      replace (team1_score m <? team2_score m) with true by lia.
      replace (team2_score m <? team1_score m) with false by lia.
      eexists _, _. split; [tuple_eq|lia].
    + replace (team1_score m >? team2_score m) with false by lia.
      replace (team1_score m <? team2_score m) with false by lia.
      replace (team2_score m <? team1_score m) with false by lia.
      eexists _, _. split; [tuple_eq|lia].
    + replace (team1_score m >? team2_score m) with true by lia.
      replace (team1_score m <? team2_score m) with false by lia.
      replace (team2_score m <? team1_score m) with true by lia.
      eexists _, _. split; [tuple_eq|lia].
  - destruct (team2 m =? tid) eqn:H2; simpl.
    + destruct (Z.lt_trichotomy (team2_score m) (team1_score m)) as [H|[H|H]].
      * replace (team2_score m >? team1_score m) with false by lia.
        replace (team2_score m <? team1_score m) with true by lia.
        replace (team1_score m <? team2_score m) with false by lia.
        eexists _, _. split; [tuple_eq|lia].
      * replace (team2_score m >? team1_score m) with false by lia.
        replace (team2_score m <? team1_score m) with false by lia.
        replace (team1_score m <? team2_score m) with false by lia.
        eexists _, _. split; [tuple_eq|lia].
      * replace (team2_score m >? team1_score m) with true by lia.
        replace (team2_score m <? team1_score m) with false by lia.
        replace (team1_score m <? team2_score m) with true by lia.
        eexists _, _. split; [tuple_eq|lia].
    + eexists _, _. split; [tuple_eq|lia].
Qed.

(** The loop of [compute_stats] from any accumulator. *)
Lemma stats_loop tid ms : ∀ wins losses gf ga,
  ∃ gf' ga',
    foldl (stats_step tid) (wins, losses, gf, ga) ms
    = (wins + count (won tid) ms, losses + count (lost tid) ms, gf', ga')
    ∧ gf' - ga' = gf - ga + goal_difference tid ms.
Proof.
  induction ms as [|m ms IH]; intros wins losses gf ga.
  - exists gf, ga. unfold count, goal_difference. simpl. split; [|lia]. tuple_eq.
  - rewrite !count_cons, goal_difference_cons. cbn [foldl].
    destruct (stats_step_eq tid m wins losses gf ga) as (gf1 & ga1 & -> & Hd1).
    destruct (IH (wins + (if won tid m then 1 else 0))
                 (losses + (if lost tid m then 1 else 0)) gf1 ga1)
      as (gf' & ga' & -> & Hd).
    exists gf', ga'. split; [tuple_eq|lia].
Qed.

Lemma compute_stats_eq ms tid :
  compute_stats ms tid
  = (count (won tid) ms, count (lost tid) ms, goal_difference tid ms).
Proof.
  unfold compute_stats.
  destruct (stats_loop tid ms 0 0 0 0) as (gf' & ga' & -> & Hd).
  tuple_eq.
Qed.

(** Every match of the team is won, lost or drawn, and only one of them. *)
Lemma one_outcome tid m :
  (if won tid m then 1 else 0) + (if lost tid m then 1 else 0)
  + (if drawn tid m then 1 else 0)
  = if participates tid m then 1 else 0.
Proof.
  unfold won, lost, drawn.
  destruct (participates tid m); simpl; [|lia].
  destruct (Z.lt_trichotomy (own_score tid m) (opponent_score tid m)) as [H|[H|H]].
  - replace (own_score tid m <? opponent_score tid m) with true by lia.
    replace (opponent_score tid m <? own_score tid m) with false by lia.
    replace (own_score tid m =? opponent_score tid m) with false by lia. lia.
  - replace (own_score tid m <? opponent_score tid m) with false by lia.
    replace (opponent_score tid m <? own_score tid m) with false by lia.
    replace (own_score tid m =? opponent_score tid m) with true by lia. lia.
  - replace (own_score tid m <? opponent_score tid m) with false by lia.
    replace (opponent_score tid m <? own_score tid m) with true by lia.
    replace (own_score tid m =? opponent_score tid m) with false by lia. lia.
Qed.

Lemma count_outcomes tid ms :
  count (won tid) ms + count (lost tid) ms + count (drawn tid) ms
  = count (participates tid) ms.
Proof.
  induction ms as [|m ms IH]; [done|]. rewrite !count_cons.
  pose proof (one_outcome tid m). lia.
Qed.

Lemma count_none f ms : Forall (λ m, f m = false) ms → count f ms = 0.
Proof.
  induction 1 as [|m ms Hm _ IH]; [done|]. rewrite count_cons, Hm, IH. done.
Qed.

Lemma count_ext f g ms : (∀ m, f m = g m) → count f ms = count g ms.
Proof.
  intros Hfg. induction ms as [|m ms IH]; [done|].
  by rewrite !count_cons, Hfg, IH.
Qed.

(** The head-to-head loop from any count. *)
Lemma count_loop a b ms : ∀ cnt,
  foldl (count_step a b) cnt ms = cnt + count (between a b) ms.
Proof.
  induction ms as [|m ms IH]; intros cnt; simpl.
  - unfold count. simpl. lia.
  - rewrite IH, count_cons. unfold count_step, between.
    destruct ((team1 m =? a) && (team2 m =? b) || (team1 m =? b) && (team2 m =? a)); lia.
Qed.

(** C2. [compute_stats] returns the number of matches won by the team, the
    number it lost, and the sum of (own score - opponent score) over the
    matches it takes part in; a drawn match changes neither counter; a team
    that takes part in no match gets (0, 0, 0). *)
Theorem compute_stats_correct matches tid :
  compute_stats matches tid
  = (count (won tid) matches, count (lost tid) matches,
     goal_difference tid matches)
  ∧ (∀ m wins losses gf ga, drawn tid m = true →
       ∃ gf' ga', stats_step tid (wins, losses, gf, ga) m = (wins, losses, gf', ga'))
  ∧ (Forall (λ m, participates tid m = false) matches →
       compute_stats matches tid = (0, 0, 0)).
Proof.
  split; [apply compute_stats_eq|]. split.
  - intros m wins losses gf ga.
    unfold drawn, participates, own_score, opponent_score, stats_step.
    destruct (team1 m =? tid) eqn:H1; simpl.
    + intros He. apply Z.eqb_eq in He. rewrite He.
      replace (team2_score m >? team2_score m) with false by lia.
      rewrite Z.ltb_irrefl. eauto.
    + destruct (team2 m =? tid); [|done]. simpl.
      intros He. apply Z.eqb_eq in He. rewrite He.
      replace (team1_score m >? team1_score m) with false by lia.
      rewrite Z.ltb_irrefl. eauto.
  - intros Hno. rewrite compute_stats_eq.
    assert (Hw : Forall (λ m, won tid m = false) matches).
    { eapply Forall_impl; [exact Hno|]. intros m Hm. unfold won. by rewrite Hm. }
    assert (Hl : Forall (λ m, lost tid m = false) matches).
    { eapply Forall_impl; [exact Hno|]. intros m Hm. unfold lost. by rewrite Hm. }
    rewrite (count_none _ _ Hw), (count_none _ _ Hl). f_equal.
    unfold goal_difference. clear Hw Hl.
    induction Hno as [|m ms Hm _ IH]; [done|]. simpl. by rewrite Hm.
Qed.

(** C7. The wins and losses returned by [compute_stats] add up to at most
    the number of matches the team takes part in; the matches left are the
    drawn ones. *)
Theorem wins_losses_bound matches tid :
  let '(wins, losses, _) := compute_stats matches tid in
  0 ≤ wins ∧ 0 ≤ losses
  ∧ wins + losses ≤ count (participates tid) matches
  ∧ count (participates tid) matches - (wins + losses) = count (drawn tid) matches.
Proof.
  rewrite compute_stats_eq.
  pose proof (count_outcomes tid matches).
  pose proof (count_nonneg (won tid) matches).
  pose proof (count_nonneg (lost tid) matches).
  pose proof (count_nonneg (drawn tid) matches). lia.
Qed.

(** C6. The head-to-head count is the number of matches whose two sides are
    the two teams, in either order; it does not depend on the order of the
    two teams; for a team against itself it is the number of matches with
    that team on both sides. *)
Theorem count_matches_symmetric matches a b :
  count_matches matches a b = count (between a b) matches
  ∧ count_matches matches a b = count_matches matches b a
  ∧ count_matches matches a a
    = count (λ m, (team1 m =? a) && (team2 m =? a)) matches.
Proof.
  unfold count_matches. rewrite !count_loop, !Z.add_0_l.
  split; [done|]. split.
  - apply count_ext. intros m. unfold between. apply orb_comm.
  - apply count_ext. intros m. unfold between. apply orb_diag.
Qed.

End Engines.

(** ** Formatting *)

Lemma format_signed_sign d :
  format_signed d
  = (if d <? 0 then minus_sign else plus_sign) :: str_of_int (Z.abs d).
Proof.
  unfold format_signed, str_of_int.
  replace (Z.abs d <? 0) with false by lia.
  replace (Z.abs_N (Z.abs d)) with (Z.abs_N d) by lia.
  by destruct (d <? 0).
Qed.

(** ** The query loop *)

Section QueryFacts.

Context {World : Type}.
Variable api : Api World.
Variable team_map : gmap str Z.
Variable player_team : gmap Z Z.
Variable matches : list game.

Implicit Types (line rest : str) (st : state World) (stdin : list str).

Local Abbreviation handle := (handle_line api team_map player_team matches).

Lemma for_each_cons {A} (x : A) xs (body : A → M World ()) st :
  for_each (x :: xs) body st
  = match body x st with
    | (Return _, st') => for_each xs body st'
    | (Raise e, st') => (Raise e, st')
    end.
Proof. reflexivity. Qed.

(** A line handled without an exception lets the loop go on with the next. *)
Lemma for_each_next {A} (x : A) xs (body : A → M World ()) st st' :
  body x st = (Return (), st') →
  for_each (x :: xs) body st = for_each xs body st'.
Proof. intros H. by rewrite for_each_cons, H. Qed.

Lemma handle_line_blank line st :
  strip line = [] → handle line st = (Return (), st).
Proof. intros H. unfold handle_line. by rewrite H. Qed.

Lemma handle_line_stats line st :
  startswith (strip line) (u "stats?") = true →
  handle line st
  = stats_query team_map matches (strip (drop 6 (strip line))) st.
Proof.
  intros H. unfold handle_line.
  destruct (strip line) as [|c r]; [by vm_compute in H|].
  cbn [nonempty negb]. by rewrite H.
Qed.

Lemma versus_not_stats s :
  startswith s (u "versus?") = true → startswith s (u "stats?") = false.
Proof.
  destruct s as [|c r]; [done|]. cbn.
  intros [Hc _]%andb_prop. apply N.eqb_eq in Hc. by subst c.
Qed.

Lemma handle_line_versus line st :
  startswith (strip line) (u "versus?") = true →
  handle line st
  = versus_query api player_team matches (split (strip (drop 7 (strip line)))) st.
Proof.
  intros H. unfold handle_line. rewrite (versus_not_stats _ H).
  destruct (strip line) as [|c r]; [by vm_compute in H|].
  cbn [nonempty negb]. by rewrite H.
Qed.

Lemma handle_line_other line st :
  strip line ≠ [] →
  startswith (strip line) (u "stats?") = false →
  startswith (strip line) (u "versus?") = false →
  handle line st
  = (Return (), State (world st) (trace st ++ [Stderr (u "Unrecognized query")])).
Proof.
  intros Hne Hs Hv. unfold handle_line. rewrite Hs, Hv.
  by destruct (strip line).
Qed.

(** The stats? branch prints one line and returns. *)
Lemma stats_query_run rest st :
  stats_query team_map matches rest st
  = (Return (),
     printed (world st) st (stats_reply team_map matches (Shlex.split rest))).
Proof.
  unfold stats_query, first_token, stats_reply, try_except, bind, printed.
  destruct (Shlex.split rest) as [e|[|name more]]; try reflexivity.
  cbn. destruct (team_map !! name) as [tid|]; [|reflexivity].
  by destruct (compute_stats matches tid) as [[w l] d].
Qed.

(** C8. A line that is empty once stripped produces no output and the loop
    goes on with the next line; a line that is not empty and starts with
    neither command writes one line, the notice of an unrecognized query, on
    the error stream, nothing on standard output, and the loop goes on. *)
Theorem other_lines line stdin st :
  (strip line = [] →
     handle line st = (Return (), st)
     ∧ for_each (line :: stdin) handle st = for_each stdin handle st)
  ∧ (strip line ≠ [] →
     startswith (strip line) (u "stats?") = false →
     startswith (strip line) (u "versus?") = false →
     let st' := State (world st) (trace st ++ [Stderr (u "Unrecognized query")]) in
     handle line st = (Return (), st')
     ∧ for_each (line :: stdin) handle st = for_each stdin handle st').
Proof.
  split.
  - intros H. pose proof (handle_line_blank line st H) as Hl.
    split; [done|]. by apply for_each_next.
  - intros Hne Hs Hv st'. pose proof (handle_line_other line st Hne Hs Hv) as Hl.
    split; [done|]. by apply for_each_next.
Qed.


(** C9. A line is dispatched on its first characters alone: whatever
    follows [stats?], with or without a space, is the remainder given to the
    stats? branch, and whatever follows [versus?] is split into the words
    given to the versus? branch. *)
Theorem prefix_dispatch pre arg st :
  forallb isspace pre = true →
  handle (pre ++ u "stats?" ++ arg) st
  = stats_query team_map matches (strip arg) st
  ∧ handle (pre ++ u "versus?" ++ arg) st
    = versus_query api player_team matches (split arg) st
  ∧ handle (pre ++ u "stats?" ++ arg) st = handle (u "stats? " ++ arg) st
  ∧ handle (pre ++ u "versus?" ++ arg) st = handle (u "versus? " ++ arg) st.
Proof.
  intros Hpre.
  assert (Hs : ∀ p a, forallb isspace p = true →
    handle (p ++ u "stats?" ++ a) st = stats_query team_map matches (strip a) st).
  { intros p a Hp. rewrite handle_line_stats.
    - rewrite (strip_command p (u "stats?") a) by done.
      change (drop 6 (u "stats?" ++ rstrip a)) with (rstrip a).
      by rewrite strip_rstrip.
    - rewrite (strip_command p (u "stats?") a) by done. apply startswith_app. }
  assert (Hv : ∀ p a, forallb isspace p = true →
    handle (p ++ u "versus?" ++ a) st
    = versus_query api player_team matches (split a) st).
  { intros p a Hp. rewrite handle_line_versus.
    - rewrite (strip_command p (u "versus?") a) by done.
      change (drop 7 (u "versus?" ++ rstrip a)) with (rstrip a).
      rewrite strip_rstrip, split_strip. done.
    - rewrite (strip_command p (u "versus?") a) by done. apply startswith_app. }
  split; [by apply Hs|]. split; [by apply Hv|]. split.
  - rewrite (Hs pre arg Hpre).
    change (u "stats? " ++ arg) with ([] ++ u "stats?" ++ (32%N :: arg)).
    by rewrite (Hs [] (32%N :: arg) eq_refl).
  - rewrite (Hv pre arg Hpre).
    change (u "versus? " ++ arg) with ([] ++ u "versus?" ++ (32%N :: arg)).
    by rewrite (Hv [] (32%N :: arg) eq_refl).
Qed.

(** C10, as amended. A stats? line whose remainder has no token at all,
    which is the case exactly when nothing but blanks follows [stats?],
    prints [0 0 0] and the loop goes on with the next line. *)
Theorem stats_without_token line stdin st :
  startswith (strip line) (u "stats?") = true →
  Shlex.split (strip (drop 6 (strip line))) = inr [] →
  handle line st = (Return (), printed (world st) st (u "0 0 0"))
  ∧ for_each (line :: stdin) handle st
    = for_each stdin handle (printed (world st) st (u "0 0 0"))
  ∧ strip line = u "stats?".
Proof.
  intros H Htok.
  assert (Hl : handle line st = (Return (), printed (world st) st (u "0 0 0"))).
  { rewrite (handle_line_stats _ _ H), stats_query_run. by rewrite Htok. }
  split; [done|]. split; [by apply for_each_next|].
  apply split_strip_nil_iff in Htok.
  apply startswith_inv in H. rewrite H.
  change (length (u "stats?")) with 6%nat.
  apply strip_nil_iff in Htok.
  assert (Hd : drop 6 (strip line) = []).
  { pose proof (strip_rstrip (lstrip line)) as Hi.
    destruct (drop 6 (strip line)) as [|c r] eqn:Hdr; [done|]. exfalso.
    assert (Hr : rstrip (strip line) = strip line)
      by (unfold strip; apply rstrip_idemp).
    rewrite H in Hr. change (length (u "stats?")) with 6%nat in Hr.
    rewrite Hdr in Hr.
    assert (Hlast : rstrip (c :: r) = []) by (by apply rstrip_nil_iff).
    revert Hr. change (u "stats?") with [115; 116; 97; 116; 115; 63]%N.
    cbn [app]. rewrite !rstrip_cons_solid by reflexivity. rewrite Hlast.
    intros Hr. by simplify_eq. }
  rewrite Hd. by rewrite app_nil_r.
Qed.

(** *** Integers in a versus? line *)

Lemma decimal_is_digit c : is_some (decimal_value c) = true → is_some (digit_value c) = true.
Proof. unfold digit_value. by destruct (decimal_value c). Qed.

Lemma isdecimal_isdigit s : isdecimal s = true → isdigit s = true.
Proof.
  unfold isdecimal, isdigit. intros [Hn Hall]%andb_prop. rewrite Hn. simpl.
  rewrite forallb_forall in *. intros c Hc. apply decimal_is_digit. auto.
Qed.

Lemma digits_value_some acc s :
  forallb (λ c, is_some (decimal_value c)) s = true →
  0 ≤ acc → ∃ n, digits_value acc s = Some n ∧ 0 ≤ n.
Proof.
  revert acc. induction s as [|c s IH]; intros acc; simpl; [eauto|].
  intros [Hc Hs]%andb_prop Hacc.
  destruct (decimal_value c) as [d|]; [|done]. apply IH; [done|lia].
Qed.

Lemma digits_value_decimal acc s n :
  digits_value acc s = Some n →
  forallb (λ c, is_some (decimal_value c)) s = true.
Proof.
  revert acc. induction s as [|c s IH]; intros acc; simpl; [done|].
  destruct (decimal_value c) as [d|]; [|done]. simpl. apply IH.
Qed.

(** [int] converts exactly the strings of decimal digits. *)
Lemma int_of_str_iff s :
  isdecimal s = true ↔ ∃ n, int_of_str s = Some n.
Proof.
  unfold isdecimal, int_of_str. destruct (nonempty s); simpl.
  - split.
    + intros H. destruct (digits_value_some 0 s H) as (n & Hn & _); [lia|eauto].
    + intros [n Hn]. by eapply digits_value_decimal.
  - split; [done|]. by intros [n Hn].
Qed.

Lemma int_of_str_nonneg s n : int_of_str s = Some n → 0 ≤ n.
Proof.
  intros Hn. assert (Hd : isdecimal s = true) by (apply int_of_str_iff; eauto).
  unfold isdecimal, int_of_str in *. apply andb_prop in Hd as [Hne Hall].
  rewrite Hne in Hn. destruct (digits_value_some 0 s Hall) as (m & Hm & ?); [lia|].
  congruence.
Qed.

Lemma int_of_str_isdigit s n : int_of_str s = Some n → isdigit s = true.
Proof. intros H. apply isdecimal_isdigit, int_of_str_iff. eauto. Qed.

(** *** The versus? branch *)

Lemma players_exist_two p1 p2 st :
  players_exist api [p1; p2] st
  = match get_player api p1 (world st) with
    | (Fetched _, w1) =>
        match get_player api p2 w1 with
        | (Fetched _, w2) => (Return true, State w2 (trace st))
        | (StatusError _, w2) => (Return false, State w2 (trace st))
        | (RequestFailed msg, w2) =>
            (Raise (RequestException msg), State w2 (trace st))
        end
    | (StatusError _, w1) => (Return false, State w1 (trace st))
    | (RequestFailed msg, w1) =>
        (Raise (RequestException msg), State w1 (trace st))
    end.
Proof.
  unfold players_exist, try_except, bind, fetch_json. cbn.
  destruct (get_player api p1 (world st)) as [[pl1|msg1|msg1] w1]; cbn; try done.
  by destruct (get_player api p2 w1) as [[pl2|msg2|msg2] w2].
Qed.


Lemma versus_query_two a b p1 p2 st :
  int_of_str a = Some p1 → int_of_str b = Some p2 →
  versus_query api player_team matches [a; b] st
  = versus_outcome api player_team matches p1 p2 st.
Proof.
  intros Ha Hb. unfold versus_query. cbn [length Nat.eqb negb forallb].
  rewrite (int_of_str_isdigit _ _ Ha), (int_of_str_isdigit _ _ Hb).
  cbn [andb negb orb]. unfold py_int. rewrite Ha, Hb.
  unfold bind at 1. cbn [ret]. unfold bind at 1. cbn [ret].
  unfold bind at 1. rewrite players_exist_two. unfold versus_outcome.
  destruct (get_player api p1 (world st)) as [[pl1|msg1|msg1] w1]; try done.
  destruct (get_player api p2 w1) as [[pl2|msg2|msg2] w2]; try done.
  cbn [negb]. unfold versus_reply, printed.
  by destruct (player_team !! p1), (player_team !! p2).
Qed.

(** The words of a line of good shape are two strings of digits. *)
Lemma good_shape parts :
  negb (length parts =? 2)%nat || negb (forallb isdigit parts) = false →
  ∃ a b, parts = [a; b] ∧ isdigit a = true ∧ isdigit b = true.
Proof.
  intros [Hl Hd]%orb_false_iff.
  apply negb_false_iff in Hl, Hd. apply Nat.eqb_eq in Hl.
  destruct parts as [|a [|b [|c r]]]; try done.
  exists a, b. simpl in Hd. apply andb_prop in Hd as [Ha Hb].
  apply andb_prop in Hb as [Hb _]. done.
Qed.


(** *** Failing requests in a versus? line *)




(** *** Lines that return *)




End QueryFacts.

(** ** The order on names *)

Section NameOrder.

Implicit Types a b c : str.

Lemma str_leb_total a b : str_leb a b = true ∨ str_leb b a = true.
Proof.
  revert b. induction a as [|x a IH]; intros [|y b]; simpl; auto.
  destruct (N.lt_trichotomy x y) as [H|[H|H]].
  - left. by rewrite (proj2 (N.ltb_lt x y) H).
  - subst y. rewrite N.ltb_irrefl, N.eqb_refl. simpl. apply IH.
  - right. by rewrite (proj2 (N.ltb_lt y x) H).
Qed.

Lemma str_leb_trans a b c :
  str_leb a b = true → str_leb b c = true → str_leb a c = true.
Proof.
  revert b c. induction a as [|x a IH]; intros [|y b] [|z c]; simpl; try done.
  rewrite !orb_true_iff, !andb_true_iff, !N.ltb_lt, !N.eqb_eq.
  intros [H1|[H1 Ha]] [H2|[H2 Hb]].
  - left. lia.
  - left. lia.
  - left. lia.
  - right. split; [lia|]. by eapply IH.
Qed.

Lemma str_leb_antisym a b :
  str_leb a b = true → str_leb b a = true → a = b.
Proof.
  revert b. induction a as [|x a IH]; intros [|y b]; simpl; try done.
  rewrite !orb_true_iff, !andb_true_iff, !N.ltb_lt, !N.eqb_eq.
  intros [H1|[H1 Ha]] [H2|[H2 Hb]]; try lia.
  subst y. f_equal. by apply IH.
Qed.

#[local] Instance str_le_total : Total str_le.
Proof. intros a b. apply str_leb_total. Qed.

#[local] Instance str_le_trans : Transitive str_le.
Proof. intros a b c. apply str_leb_trans. Qed.

Lemma sorted_names_spec (iter_names : gset str → list str) names :
  (∀ s, iter_names s ≡ₚ elements s) →
  StronglySorted str_le (sorted_names iter_names names)
  ∧ NoDup (sorted_names iter_names names)
  ∧ ∀ s, s ∈ sorted_names iter_names names ↔ s ∈ names.
Proof.
  intros Hiter. unfold sorted_names.
  split; [apply StronglySorted_merge_sort; apply _|].
  assert (Hp : merge_sort str_le (iter_names (list_to_set names))
               ≡ₚ elements (list_to_set (C:=gset str) names)).
  { by rewrite merge_sort_Permutation, Hiter. }
  split.
  - rewrite Hp. apply NoDup_elements.
  - intros s. rewrite Hp, elem_of_elements, elem_of_list_to_set. done.
Qed.

End NameOrder.

(** ** The roster and the whole run *)

Section MainFacts.

Context {World : Type}.
Variable api : Api World.
Variable iter_ids : gset Z → list Z.
Variable iter_names : gset str → list str.
Hypothesis iter_ids_elements : ∀ s, iter_ids s ≡ₚ elements s.
Hypothesis iter_names_elements : ∀ s, iter_names s ≡ₚ elements s.

Implicit Types (st : state World) (stdin : list str) (teams : list team).

Lemma elem_of_collect_ids teams pid :
  pid ∈ collect_ids teams ↔ ∃ t, t ∈ teams ∧ pid ∈ players_of t.
Proof.
  unfold collect_ids.
  assert (Hin : ∀ (l : list Z) (acc : gset Z),
    pid ∈ foldl (λ ids p, {[p]} ∪ ids) acc l ↔ pid ∈ acc ∨ pid ∈ l).
  { induction l as [|p l IH]; intros acc; simpl.
    - rewrite elem_of_nil. tauto.
    - rewrite IH, elem_of_union, elem_of_singleton, elem_of_cons. tauto. }
  assert (Hout : ∀ (ts : list team) (acc : gset Z),
    pid ∈ foldl (λ player_ids team,
                   foldl (λ ids p, {[p]} ∪ ids) player_ids (players_of team))
                acc ts
    ↔ pid ∈ acc ∨ ∃ t, t ∈ ts ∧ pid ∈ players_of t).
  { induction ts as [|t ts IH]; intros acc; simpl.
    - split; [by left|]. intros [?|(t & Ht & _)]; [done|].
      by apply elem_of_nil in Ht.
    - rewrite IH, Hin. split.
      + intros [[?|?]|(t' & ? & ?)]; [by left|right..].
        * exists t. split; [by left|done].
        * exists t'. split; [by right|done].
      + intros [?|(t' & [->|?]%elem_of_cons & ?)]; [by left; left|by left; right|].
        right. by exists t'. }
  rewrite Hout. split; [|by right].
  intros [H|H]; [|done]. by apply elem_of_empty in H.
Qed.

(** The players requested: each player of some team, once. *)
Lemma roster_ids teams :
  NoDup (iter_ids (collect_ids teams))
  ∧ ∀ pid, pid ∈ iter_ids (collect_ids teams)
           ↔ ∃ t, t ∈ teams ∧ pid ∈ players_of t.
Proof.
  split.
  - rewrite iter_ids_elements. apply NoDup_elements.
  - intros pid. rewrite iter_ids_elements, elem_of_elements.
    apply elem_of_collect_ids.
Qed.

(** One iteration of the roster loop. *)
Lemma collect_names_step pid pids names st :
  collect_names api (pid :: pids) names st
  = match get_player api pid (world st) with
    | (Fetched pl, w) =>
        collect_names api pids
          (if nonempty (full_name pl) then names ++ [full_name pl] else names)
          (State w (trace st))
    | (StatusError _, w) => collect_names api pids names (State w (trace st))
    | (RequestFailed msg, w) =>
        (Raise (RequestException msg), State w (trace st))
    end.
Proof.
  cbn [collect_names]. unfold bind, try_except, fetch_json, ret.
  destruct (get_player api pid (world st)) as [[pl|msg|msg] w]; try reflexivity.
  by destruct (nonempty (full_name pl)).
Qed.

Lemma collect_names_run pids : ∀ names st,
  players_answer api →
  ∃ w, collect_names api pids names st
       = (Return (names ++ names_of (fetched_players api pids (world st))),
          State w (trace st)).
Proof.
  induction pids as [|pid pids IH]; intros names st Hapi.
  - exists (world st). cbn. rewrite app_nil_r. by destruct st.
  - rewrite collect_names_step. cbn [fetched_players].
    pose proof (Hapi pid (world st)) as Hp.
    destruct (get_player api pid (world st)) as [[pl|msg|msg] w]; [| |done].
    + destruct (IH (if nonempty (full_name pl) then names ++ [full_name pl]
                    else names) (State w (trace st)) Hapi) as [w' ->].
      exists w'. cbn [world trace]. unfold names_of. cbn [fmap list_fmap List.filter].
      destruct (nonempty (full_name pl)); [|done]. by rewrite <- app_assoc.
    + destruct (IH names (State w (trace st)) Hapi) as [w' ->]. by exists w'.
Qed.

Lemma elem_of_names_of players s :
  s ∈ names_of players ↔ s ≠ [] ∧ ∃ pl, pl ∈ players ∧ full_name pl = s.
Proof.
  unfold names_of. rewrite list_elem_of_In, filter_In, <- list_elem_of_In.
  rewrite list_elem_of_fmap. split.
  - intros [(pl & -> & Hpl) Hne]. split; [by destruct (full_name pl)|eauto].
  - intros [Hne (pl & Hpl & <-)]. split; [eauto|]. by destruct (full_name pl).
Qed.

Lemma for_each_print (lines : list str) : ∀ st,
  for_each lines print st
  = (Return (), State (world st) (trace st ++ (Stdout <$> lines))).
Proof.
  induction lines as [|l lines IH]; intros st.
  - cbn. rewrite app_nil_r. by destruct st.
  - rewrite (for_each_next l lines print st (printed (world st) st l)) by done.
    rewrite IH. cbn. by rewrite <- app_assoc.
Qed.

Lemma list_players_run teams w1 st :
  get_teams api (world st) = (Fetched teams, w1) →
  players_answer api →
  ∃ w2, list_players api iter_ids iter_names st
        = (Return teams,
           State w2
             (trace st
              ++ (Stdout <$>
                    sorted_names iter_names
                      (names_of (fetched_players api
                                   (iter_ids (collect_ids teams)) w1))))).
Proof.
  intros Ht Hapi. unfold list_players, bind at 1, fetch_json. rewrite Ht.
  destruct (collect_names_run (iter_ids (collect_ids teams)) []
              (State w1 (trace st)) Hapi) as [w2 Hrun].
  exists w2. unfold bind at 1. rewrite Hrun. cbn [app world trace].
  unfold bind. by rewrite for_each_print.
Qed.

Lemma list_players_failure teams w1 st e st2 :
  get_teams api (world st) = (Fetched teams, w1) →
  collect_names api (iter_ids (collect_ids teams)) [] (State w1 (trace st))
  = (Raise e, st2) →
  list_players api iter_ids iter_names st = (Raise e, st2).
Proof.
  intros Ht Hc. unfold list_players, bind at 1, fetch_json. rewrite Ht.
  unfold bind at 1. by rewrite Hc.
Qed.

Lemma main_run arg env stdin st c tok ms w0 teams st1 :
  token_of arg env = Some (c :: tok) →
  get_matches api (world st) = (Fetched ms, w0) →
  list_players api iter_ids iter_names (State w0 (trace st)) = (Return teams, st1) →
  main api iter_ids iter_names arg env stdin st
  = handle_queries api teams ms stdin st1.
Proof.
  intros Htok Hm Hl. unfold main. rewrite Htok.
  unfold bind at 1, try_except at 1, fetch_json at 1. rewrite Hm.
  unfold bind at 1, try_except at 1. by rewrite Hl.
Qed.


Lemma full_name_spec pl :
  full_name pl
  = spec_full_name (default [] (p_name pl)) (default [] (p_surname pl)).
Proof.
  unfold full_name, spec_full_name.
  by destruct (strip (default [] (p_name pl))),
              (strip (default [] (p_surname pl))).
Qed.

(** *** The trace only grows *)

Lemma appends_ret {A} (a : A) : appends (ret (World:=World) a).
Proof. intros st. exists []. cbn. by rewrite app_nil_r. Qed.

Lemma appends_raise {A} e : appends (raise (World:=World) (A:=A) e).
Proof. intros st. exists []. cbn. by rewrite app_nil_r. Qed.

Lemma appends_print line : appends (print (World:=World) line).
Proof. intros st. by exists [Stdout line]. Qed.

Lemma appends_print_err line : appends (print_err (World:=World) line).
Proof. intros st. by exists [Stderr line]. Qed.

Lemma appends_fetch_json {A} (request : World → fetch_result A * World) :
  appends (fetch_json request).
Proof.
  intros st. exists []. unfold fetch_json.
  destruct (request (world st)) as [[a|msg|msg] w]; cbn; by rewrite app_nil_r.
Qed.

Lemma appends_bind {A B} (c : M World A) (k : A → M World B) :
  appends c → (∀ a, appends (k a)) → appends (bind c k).
Proof.
  intros Hc Hk st. unfold bind. destruct (Hc st) as [l1 H1].
  destruct (c st) as [[a|e] st1]; cbn in *.
  - destruct (Hk a st1) as [l2 H2]. exists (l1 ++ l2).
    by rewrite H2, H1, app_assoc.
  - by exists l1.
Qed.

Lemma appends_try_except {A} (body : M World A) catches handler :
  appends body → (∀ e, appends (handler e)) →
  appends (try_except body catches handler).
Proof.
  intros Hb Hh st. unfold try_except. destruct (Hb st) as [l1 H1].
  destruct (body st) as [[a|e] st1]; cbn in *; [by exists l1|].
  destruct (catches e); [|by exists l1].
  destruct (Hh e st1) as [l2 H2]. exists (l1 ++ l2).
  by rewrite H2, H1, app_assoc.
Qed.

Lemma appends_for_each {A} (xs : list A) (body : A → M World ()) :
  (∀ x, appends (body x)) → appends (for_each xs body).
Proof.
  intros Hb. induction xs as [|x xs IH]; [apply appends_ret|].
  cbn [for_each]. apply appends_bind; auto.
Qed.

Create HintDb appends.
#[local] Hint Resolve appends_ret appends_raise appends_print appends_print_err
  appends_fetch_json appends_bind appends_try_except appends_for_each : appends.

Lemma appends_players_exist pids : appends (players_exist api pids).
Proof.
  induction pids as [|pid pids IH]; cbn [players_exist]; [auto with appends|].
  apply appends_bind; [auto 6 with appends|].
  intros [|]; auto with appends.
Qed.

Lemma appends_handle_line team_map player_team matches line :
  appends (handle_line api team_map player_team matches line).
Proof.
  unfold handle_line.
  destruct (negb (nonempty (strip line))); [auto with appends|].
  destruct (startswith (strip line) (u "stats?")).
  { intros st. rewrite stats_query_run. by eexists [_]. }
  destruct (startswith (strip line) (u "versus?")); [|auto with appends].
  unfold versus_query.
  destruct (negb _ || negb _); [auto with appends|].
  destruct (split _) as [|a [|b [|? ?]]]; auto with appends.
  unfold py_int.
  apply appends_bind; [destruct (int_of_str a); auto with appends|]. intros p1.
  apply appends_bind; [destruct (int_of_str b); auto with appends|]. intros p2.
  apply appends_bind; [apply appends_players_exist|]. intros exist.
  destruct (negb exist); [auto with appends|].
  destruct (player_team !! p1), (player_team !! p2); auto with appends.
Qed.

Lemma appends_handle_queries teams matches stdin :
  appends (handle_queries api teams matches stdin).
Proof.
  unfold handle_queries. apply appends_for_each.
  intros line. apply appends_handle_line.
Qed.

(** C5. When the matches and the teams are fetched and every request for a
    player is answered, [list_players] returns after printing the roster:
    one line for each name, the names in ascending order of code points and
    without duplicates, a name being printed exactly when it is the full
    name, not empty, of a fetched player, where the full name is the
    trimmed name, a space and the trimmed surname with an empty part left
    out.  The players requested are those of the teams, each once.  The
    queries are handled from the state in which the whole roster is
    printed, and what they print comes after it. *)
Theorem roster_listing arg env stdin st c tok ms w0 teams w1 :
  token_of arg env = Some (c :: tok) →
  get_matches api (world st) = (Fetched ms, w0) →
  get_teams api w0 = (Fetched teams, w1) →
  players_answer api →
  let pids := iter_ids (collect_ids teams) in
  let fetched := fetched_players api pids w1 in
  ∃ emitted w2 later,
    list_players api iter_ids iter_names (State w0 (trace st))
    = (Return teams, State w2 (trace st ++ (Stdout <$> emitted)))
    ∧ main api iter_ids iter_names arg env stdin st
      = handle_queries api teams ms stdin
          (State w2 (trace st ++ (Stdout <$> emitted)))
    ∧ trace (main api iter_ids iter_names arg env stdin st).2
      = trace st ++ (Stdout <$> emitted) ++ later
    ∧ StronglySorted str_le emitted
    ∧ NoDup emitted
    ∧ (∀ s, s ∈ emitted ↔ s ≠ [] ∧ ∃ pl, pl ∈ fetched ∧ full_name pl = s)
    ∧ (∀ pl, full_name pl
             = spec_full_name (default [] (p_name pl)) (default [] (p_surname pl)))
    ∧ NoDup pids
    ∧ (∀ pid, pid ∈ pids ↔ ∃ t, t ∈ teams ∧ pid ∈ players_of t).
Proof.
  intros Htok Hm Ht Hapi pids fetched.
  destruct (list_players_run teams w1 (State w0 (trace st)) Ht Hapi) as [w2 Hl].
  cbn [trace] in Hl. fold pids fetched in Hl.
  set (emitted := sorted_names iter_names (names_of fetched)) in *.
  pose proof (main_run arg env stdin st c tok ms w0 teams _ Htok Hm Hl) as Hmain.
  destruct (appends_handle_queries teams ms stdin
              (State w2 (trace st ++ (Stdout <$> emitted)))) as [later Hlater].
  destruct (sorted_names_spec iter_names (names_of fetched) iter_names_elements)
    as (Hsorted & Hnodup & Hmem).
  destruct (roster_ids teams) as [Hids1 Hids2].
  exists emitted, w2, later.
  split; [done|]. split; [done|]. split.
  { rewrite Hmain, Hlater. cbn [trace]. by rewrite app_assoc. }
  split; [done|]. split; [done|]. split.
  { intros s. unfold emitted. rewrite Hmem. apply elem_of_names_of. }
  split; [apply full_name_spec|]. done.
Qed.


End MainFacts.

(** ** The sample league *)

Section SampleRuns.

Import Sample.

Local Abbreviation team_map := (build_team_map teams).
Local Abbreviation player_team := (build_player_team teams).
Local Abbreviation handle := (handle_line api team_map player_team matches).

Lemma sample_players_answer : players_answer api.
Proof.
  intros pid w. cbn. unfold lookup_player.
  repeat match goal with |- context [if ?b then _ else _] => destruct b end; done.
Defined.

(** Team 9 plays no match. *)
Lemma compute_stats_correct_witness :
  Forall (λ m, participates 9 m = false) matches
  ∧ compute_stats matches 9 = (0, 0, 0)
  ∧ compute_stats matches 2 = (1, 1, -1).
Proof.
  assert (H : Forall (λ m, participates 9 m = false) matches)
    by (repeat constructor).
  split; [exact H|]. split.
  - exact (proj2 (proj2 (compute_stats_correct matches 9)) H).
  - rewrite (proj1 (compute_stats_correct matches 2)). reflexivity.
Defined.

(** A blank line, then a line that is no query. *)
Lemma other_lines_witness :
  for_each [u "   "; u "foo? bar"] handle start
  = (Return (), State 0%nat [Stderr (u "Unrecognized query")]).
Proof.
  destruct (other_lines api team_map player_team matches
              (u "   ") [u "foo? bar"] start) as [Hblank _].
  destruct (Hblank eq_refl) as [_ ->].
  destruct (other_lines api team_map player_team matches
              (u "foo? bar") [] start) as [_ Hother].
  assert (Hne : strip (u "foo? bar") ≠ []) by (vm_compute; discriminate).
  destruct (Hother Hne eq_refl eq_refl) as [_ ->].
  reflexivity.
Defined.


(** No space after the command; a question mark as the name. *)
Lemma prefix_dispatch_witness :
  handle (u "  " ++ u "stats?" ++ u "Falcons") start
  = (Return (), State 0%nat [Stdout (u "2 0 +6")])
  ∧ handle ([] ++ u "stats?" ++ u "?") start
    = (Return (), State 0%nat [Stdout (u "0 0 0")])
  ∧ handle ([] ++ u "versus?" ++ u "11 12") start
    = (Return (), State 2%nat [Stdout (u "2")]).
Proof.
  split; [|split].
  - destruct (prefix_dispatch api team_map player_team matches
                (u "  ") (u "Falcons") start eq_refl) as (-> & _).
    reflexivity.
  - destruct (prefix_dispatch api team_map player_team matches
                [] (u "?") start eq_refl) as (-> & _).
    reflexivity.
  - destruct (prefix_dispatch api team_map player_team matches
                [] (u "11 12") start eq_refl) as (_ & -> & _).
    reflexivity.
Defined.

Lemma stats_without_token_witness :
  handle (u " stats?  ") start = (Return (), State 0%nat [Stdout (u "0 0 0")])
  ∧ strip (u " stats?  ") = u "stats?".
Proof.
  destruct (stats_without_token api team_map player_team matches
              (u " stats?  ") [] start eq_refl eq_refl) as (H & _ & Hs).
  split; [exact H|exact Hs].
Defined.


Lemma roster_listing_witness :
  ∃ emitted w later,
    list_players api elements elements (State 1%nat [])
    = (Return teams, State w (Stdout <$> emitted))
    ∧ emitted = [u "Ann Lee"; u "Bob"]
    ∧ trace (main api elements elements (Some (u "secret")) None
               [u "stats? Hawks"] start).2
      = (Stdout <$> emitted) ++ later
    ∧ StronglySorted str_le emitted
    ∧ NoDup emitted.
Proof.
  destruct (roster_listing api elements elements
              (λ s, reflexivity _) (λ s, reflexivity _)
              (Some (u "secret")) None [u "stats? Hawks"] start
              115%N (u "ecret") matches 1%nat teams 2%nat
              eq_refl eq_refl eq_refl sample_players_answer)
    as (emitted & w & later & Hl & _ & Ht & Hs & Hn & _).
  exists emitted, w, later.
  split; [exact Hl|]. split; [|split; [exact Ht|split; [exact Hs|exact Hn]]].
  pose proof Hl as He. vm_compute in He. injection He as _ He.
  destruct emitted as [|a [|b [|c r]]]; try discriminate He.
  injection He as <- <-. reflexivity.
Defined.


(** *** Where the specification and the program part *)



(** C10: two quotes are one token, the empty name, which a team can have. *)
Lemma stats_empty_quotes :
  Shlex.split (strip (drop 6 (strip (u "stats? " ++ [dquote; dquote]))))
  = inr [[]]
  ∧ handle_line api (build_team_map nameless_teams)
      (build_player_team nameless_teams) matches
      (u "stats? " ++ [dquote; dquote]) start
    = (Return (), State 0%nat [Stdout (u "2 0 +6")])
  ∧ handle_line api (build_team_map nameless_teams)
      (build_player_team nameless_teams) matches
      (u "stats? " ++ [dquote; dquote]) start
    ≠ (Return (), State 0%nat [Stdout (u "0 0 0")]).
Proof.
  split; [vm_compute; reflexivity|]. split; [vm_compute; reflexivity|].
  vm_compute. discriminate.
Qed.

End SampleRuns.

(** * Further properties *)

(** ** The indexes *)

Section Indexes.

Implicit Types (teams : list team) (t : team) (name : str) (pid : Z).

Lemma build_team_map_snoc teams t :
  build_team_map (teams ++ [t]) = <[t_name t := t_id t]> (build_team_map teams).
Proof. unfold build_team_map. by rewrite foldl_snoc. Qed.

Lemma build_team_map_lookup teams name :
  build_team_map teams !! name
  = t_id <$> last (filter (λ t, t_name t = name) teams).
Proof.
  induction teams as [|t teams IH] using rev_ind; [done|].
  rewrite build_team_map_snoc, lookup_insert, filter_app.
  rewrite filter_cons, filter_nil.
  destruct (decide (t_name t = name)) as [Hn|Hn].
  - by rewrite last_snoc.
  - by rewrite app_nil_r.
Qed.

(** The inner loop over the players of one team. *)
Lemma insert_players_lookup (id : Z) (pids : list Z) (m : gmap Z Z) pid :
  foldl (λ m' p, <[p := id]> m') m pids !! pid
  = if decide (pid ∈ pids) then Some id else m !! pid.
Proof.
  revert m. induction pids as [|p pids IH]; intros m; simpl.
  - destruct (decide (pid ∈ [])) as [H|H]; [by apply elem_of_nil in H|done].
  - rewrite IH. destruct (decide (pid ∈ pids)) as [Hin|Hin].
    + rewrite decide_True; [done|by right].
    + rewrite lookup_insert. destruct (decide (p = pid)) as [->|Hne].
      * rewrite decide_True; [done|by left].
      * rewrite decide_False; [done|].
        intros [->|?]%elem_of_cons; done.
Qed.

Lemma build_player_team_snoc teams t :
  build_player_team (teams ++ [t])
  = foldl (λ m' p, <[p := t_id t]> m') (build_player_team teams) (players_of t).
Proof. unfold build_player_team. by rewrite foldl_snoc. Qed.

Lemma build_player_team_lookup teams pid :
  build_player_team teams !! pid
  = t_id <$> last (filter (λ t, pid ∈ players_of t) teams).
Proof.
  induction teams as [|t teams IH] using rev_ind; [done|].
  rewrite build_player_team_snoc, insert_players_lookup, filter_app.
  rewrite filter_cons, filter_nil.
  destruct (decide (pid ∈ players_of t)) as [Hn|Hn].
  - by rewrite last_snoc.
  - by rewrite app_nil_r.
Qed.

Lemma last_filter_None {A} (P : A → Prop) `{∀ x, Decision (P x)} (l : list A) :
  last (filter P l) = None ↔ ∀ x, x ∈ l → ¬ P x.
Proof.
  rewrite last_None. split.
  - intros Hnil x Hx HP. by eapply filter_nil_not_elem_of.
  - intros Hno. destruct (filter P l) as [|x r] eqn:Hf; [done|].
    assert (Hx : x ∈ filter P l) by (rewrite Hf; by left).
    apply list_elem_of_filter in Hx as [HP Hx]. by destruct (Hno x Hx).
Qed.

(** A name that one team only has is found with the id of that team. *)
Lemma last_filter_unique {A B} `{EqDecision B} (key : A → B) (l : list A) x :
  NoDup (key <$> l) → x ∈ l →
  last (filter (λ y, key y = key x) l) = Some x.
Proof.
  induction l as [|y l IH] using rev_ind; intros Hnd Hx.
  - by apply elem_of_nil in Hx.
  - rewrite fmap_app in Hnd. apply NoDup_app in Hnd as (Hl & Hdis & _).
    rewrite filter_app, filter_cons, filter_nil.
    apply elem_of_app in Hx as [Hx|Hx%list_elem_of_singleton].
    + rewrite decide_False, app_nil_r; [by apply IH|].
      intros Heq. apply (Hdis (key x)).
      * apply list_elem_of_fmap. eauto.
      * rewrite <- Heq. by left.
    + subst y. rewrite decide_True by done. apply last_snoc.
Qed.

(** X1. The team-name index gives, for a name, the id of the last team of
    the list that has this name, and nothing for a name no team has; when
    the names are all different, every team is found by its name. *)
Theorem team_map_last_wins teams :
  (∀ name, build_team_map teams !! name
           = t_id <$> last (filter (λ t, t_name t = name) teams))
  ∧ (∀ name, build_team_map teams !! name = None
             ↔ ∀ t, t ∈ teams → t_name t ≠ name)
  ∧ (∀ before t after, teams = before ++ t :: after →
       (∀ t', t' ∈ after → t_name t' ≠ t_name t) →
       build_team_map teams !! t_name t = Some (t_id t))
  ∧ (NoDup (t_name <$> teams) →
     ∀ t, t ∈ teams → build_team_map teams !! t_name t = Some (t_id t)).
Proof.
  split; [apply build_team_map_lookup|]. split; [|split].
  - intros name. rewrite build_team_map_lookup, fmap_None. apply last_filter_None.
  - intros before t after -> Hafter. rewrite build_team_map_lookup.
    rewrite filter_app, filter_cons, decide_True by done.
    replace (filter (λ t0, t_name t0 = t_name t) after) with (@nil team).
    + by rewrite last_snoc.
    + symmetry. apply last_None, last_filter_None. done.
  - intros Hnd t Ht. rewrite build_team_map_lookup.
    by rewrite (last_filter_unique t_name teams t Hnd Ht).
Qed.

(** X2. The player index gives, for a player, the id of the last team of the
    list that lists this player, and nothing for a player no team lists. *)
Theorem player_team_last_wins teams :
  (∀ pid, build_player_team teams !! pid
          = t_id <$> last (filter (λ t, pid ∈ players_of t) teams))
  ∧ (∀ pid, build_player_team teams !! pid = None
            ↔ ∀ t, t ∈ teams → pid ∉ players_of t)
  ∧ (∀ before t after pid, teams = before ++ t :: after →
       pid ∈ players_of t →
       (∀ t', t' ∈ after → pid ∉ players_of t') →
       build_player_team teams !! pid = Some (t_id t)).
Proof.
  split; [apply build_player_team_lookup|]. split.
  - intros pid. rewrite build_player_team_lookup, fmap_None.
    apply last_filter_None.
  - intros before t after pid -> Hin Hafter. rewrite build_player_team_lookup.
    rewrite filter_app, filter_cons, decide_True by done.
    replace (filter (λ t0, pid ∈ players_of t0) after) with (@nil team).
    + by rewrite last_snoc.
    + symmetry. apply last_None, last_filter_None. done.
Qed.

End Indexes.

(** ** More on the two engines *)

Section EngineSums.

Implicit Types (m : game) (ms : list game) (t a b : Z) (ids : list Z).

Lemma count_app f ms1 ms2 : count f (ms1 ++ ms2) = count f ms1 + count f ms2.
Proof.
  induction ms1 as [|m ms1 IH]; simpl.
  - unfold count at 2. simpl. lia.
  - rewrite !count_cons, IH. lia.
Qed.

Lemma goal_difference_app t ms1 ms2 :
  goal_difference t (ms1 ++ ms2) = goal_difference t ms1 + goal_difference t ms2.
Proof.
  induction ms1 as [|m ms1 IH]; simpl; [done|].
  rewrite !goal_difference_cons, IH. lia.
Qed.

Lemma count_perm f ms ms' : ms ≡ₚ ms' → count f ms = count f ms'.
Proof.
  induction 1 as [|m ms ms' _ IH|m m' ms|ms ms' ms'' _ IH1 _ IH2].
  - done.
  - by rewrite !count_cons, IH.
  - rewrite !count_cons. lia.
  - congruence.
Qed.

Lemma goal_difference_perm t ms ms' :
  ms ≡ₚ ms' → goal_difference t ms = goal_difference t ms'.
Proof.
  induction 1 as [|m ms ms' _ IH|m m' ms|ms ms' ms'' _ IH1 _ IH2].
  - done.
  - by rewrite !goal_difference_cons, IH.
  - rewrite !goal_difference_cons. lia.
  - congruence.
Qed.

Lemma count_matches_eq ms a b : count_matches ms a b = count (between a b) ms.
Proof. unfold count_matches. rewrite count_loop. lia. Qed.

Lemma stats_projections ms t :
  wins_of ms t = count (won t) ms
  ∧ losses_of ms t = count (lost t) ms
  ∧ diff_of ms t = goal_difference t ms.
Proof. unfold wins_of, losses_of, diff_of. by rewrite compute_stats_eq. Qed.

(** X3. The statistics of a team and the head-to-head count of two teams
    over two lists of matches put one after the other are the sums of those
    over each list, and neither depends on the order of the matches. *)
Theorem engines_additive ms1 ms2 t a b :
  wins_of (ms1 ++ ms2) t = wins_of ms1 t + wins_of ms2 t
  ∧ losses_of (ms1 ++ ms2) t = losses_of ms1 t + losses_of ms2 t
  ∧ diff_of (ms1 ++ ms2) t = diff_of ms1 t + diff_of ms2 t
  ∧ count_matches (ms1 ++ ms2) a b = count_matches ms1 a b + count_matches ms2 a b
  ∧ (ms1 ≡ₚ ms2 →
     compute_stats ms1 t = compute_stats ms2 t
     ∧ count_matches ms1 a b = count_matches ms2 a b).
Proof.
  destruct (stats_projections (ms1 ++ ms2) t) as (-> & -> & ->).
  destruct (stats_projections ms1 t) as (-> & -> & ->).
  destruct (stats_projections ms2 t) as (-> & -> & ->).
  rewrite !count_matches_eq, !count_app, goal_difference_app.
  split; [done|]. split; [done|]. split; [done|]. split; [done|].
  intros Hperm. split.
  - rewrite !compute_stats_eq.
    by rewrite (count_perm _ _ _ Hperm), (count_perm (lost t) _ _ Hperm),
               (goal_difference_perm _ _ _ Hperm).
  - by apply count_perm.
Qed.

Lemma total_cons (x : Z) (l : list Z) : total (x :: l) = x + total l.
Proof. reflexivity. Qed.

Lemma total_ext {A} (F G : A → Z) (l : list A) :
  (∀ x, x ∈ l → F x = G x) → total (F <$> l) = total (G <$> l).
Proof.
  induction l as [|x l IH]; intros H; [done|].
  rewrite !fmap_cons, !total_cons. rewrite (H x) by (by left).
  rewrite IH; [done|]. intros y Hy. apply H. by right.
Qed.

Lemma total_add {A} (F G : A → Z) (l : list A) :
  total ((λ x, F x + G x) <$> l) = total (F <$> l) + total (G <$> l).
Proof.
  induction l as [|x l IH]; [done|].
  rewrite !fmap_cons, !total_cons, IH. lia.
Qed.

Lemma total_zero {A} (F : A → Z) (l : list A) :
  (∀ x, x ∈ l → F x = 0) → total (F <$> l) = 0.
Proof.
  induction l as [|x l IH]; intros H; [done|].
  rewrite fmap_cons, total_cons. rewrite (H x) by (by left).
  rewrite IH; [done|]. intros y Hy. apply H. by right.
Qed.

(** A sum over a list without duplicates of a function that vanishes but
    at one element, at two elements. *)
Lemma total_one (F : Z → Z) ids b :
  NoDup ids → b ∈ ids → (∀ t, t ∈ ids → t ≠ b → F t = 0) →
  total (F <$> ids) = F b.
Proof.
  induction ids as [|x ids IH]; intros Hnd Hb HF.
  - by apply elem_of_nil in Hb.
  - apply NoDup_cons in Hnd as [Hx Hnd]. rewrite fmap_cons, total_cons.
    destruct (decide (x = b)) as [->|Hne].
    + rewrite total_zero; [lia|].
      intros t Ht. apply HF; [by right|]. by intros ->.
    + apply elem_of_cons in Hb as [->|Hb]; [done|].
      rewrite (HF x); [|by left|done]. rewrite IH; [lia|done|done|].
      intros t Ht. apply HF. by right.
Qed.

Lemma total_two (F : Z → Z) ids a b :
  NoDup ids → a ∈ ids → b ∈ ids → a ≠ b →
  (∀ t, t ∈ ids → t ≠ a → t ≠ b → F t = 0) →
  total (F <$> ids) = F a + F b.
Proof.
  induction ids as [|x ids IH]; intros Hnd Ha Hb Hab HF.
  - by apply elem_of_nil in Ha.
  - apply NoDup_cons in Hnd as [Hx Hnd]. rewrite fmap_cons, total_cons.
    destruct (decide (x = a)) as [->|Hxa].
    + apply elem_of_cons in Hb as [->|Hb]; [done|].
      rewrite (total_one F ids b); [done|done|done|].
      intros t Ht Htb. apply HF; [by right| |done]. by intros ->.
    + destruct (decide (x = b)) as [->|Hxb].
      * apply elem_of_cons in Ha as [->|Ha]; [done|].
        rewrite (total_one F ids a); [lia|done|done|].
        intros t Ht Hta. apply HF; [by right|done|]. by intros ->.
      * apply elem_of_cons in Ha as [->|Ha]; [done|].
        apply elem_of_cons in Hb as [->|Hb]; [done|].
        rewrite (HF x); [|by left|done|done]. rewrite IH; [lia|done..|].
        intros t Ht. apply HF. by right.
Qed.

(** What one match between two different teams brings to the league. *)
Lemma match_balance m ids :
  NoDup ids → team1 m ∈ ids → team2 m ∈ ids → team1 m ≠ team2 m →
  total ((λ t, if won t m then 1 else 0) <$> ids)
  = total ((λ t, if lost t m then 1 else 0) <$> ids)
  ∧ total ((λ t, if participates t m
                 then own_score t m - opponent_score t m else 0) <$> ids) = 0.
Proof.
  intros Hnd H1 H2 Hne.
  assert (Hout : ∀ t, t ≠ team1 m → t ≠ team2 m → participates t m = false).
  { intros t Ht1 Ht2. unfold participates.
    apply orb_false_iff. split; apply Z.eqb_neq; done. }
  rewrite (total_two _ ids (team1 m) (team2 m) Hnd H1 H2 Hne).
  2:{ intros t _ Ht1 Ht2. unfold won. by rewrite Hout. }
  rewrite (total_two _ ids (team1 m) (team2 m) Hnd H1 H2 Hne).
  2:{ intros t _ Ht1 Ht2. unfold lost. by rewrite Hout. }
  rewrite (total_two _ ids (team1 m) (team2 m) Hnd H1 H2 Hne).
  2:{ intros t _ Ht1 Ht2. by rewrite Hout. }
  unfold won, lost, participates, own_score, opponent_score.
  rewrite !Z.eqb_refl. replace (team1 m =? team2 m) with false by lia.
  simpl.
  destruct (team2_score m <? team1_score m), (team1_score m <? team2_score m);
    split; lia.
Qed.

(** X4. In a league where no team plays itself and the list of team ids has
    no duplicate and holds both sides of every match, the wins of all teams
    add up to the losses of all teams, and the goal differences add up to
    zero. *)
Theorem league_totals ms ids :
  NoDup ids →
  Forall (λ m, team1 m ∈ ids ∧ team2 m ∈ ids ∧ team1 m ≠ team2 m) ms →
  total (wins_of ms <$> ids) = total (losses_of ms <$> ids)
  ∧ total (diff_of ms <$> ids) = 0.
Proof.
  intros Hnd Hms.
  rewrite (total_ext (wins_of ms) (λ t, count (won t) ms))
    by (intros; apply stats_projections).
  rewrite (total_ext (losses_of ms) (λ t, count (lost t) ms))
    by (intros; apply stats_projections).
  rewrite (total_ext (diff_of ms) (λ t, goal_difference t ms))
    by (intros; apply stats_projections).
  induction Hms as [|m ms (H1 & H2 & Hne) _ [IHw IHd]].
  - split; [done|]. by apply total_zero.
  - destruct (match_balance m ids Hnd H1 H2 Hne) as [Hw Hd].
    rewrite (total_ext (λ t, count (won t) (m :: ms))
               (λ t, (if won t m then 1 else 0) + count (won t) ms))
      by (intros; apply count_cons).
    rewrite (total_ext (λ t, count (lost t) (m :: ms))
               (λ t, (if lost t m then 1 else 0) + count (lost t) ms))
      by (intros; apply count_cons).
    rewrite (total_ext (λ t, goal_difference t (m :: ms))
               (λ t, (if participates t m
                      then own_score t m - opponent_score t m else 0)
                     + goal_difference t ms))
      by (intros; apply goal_difference_cons).
    rewrite !total_add, Hw, Hd, IHw, IHd. done.
Qed.

End EngineSums.

(** ** What a line leaves behind *)

Section LineOutcomes.

Context {World : Type}.
Variable api : Api World.
Variable team_map : gmap str Z.
Variable player_team : gmap Z Z.
Variable matches : list game.

Implicit Types (line : str) (st : state World) (stdin : list str).

Local Abbreviation handle := (handle_line api team_map player_team matches).


(** Two words of digits of which one is not decimal. *)
Lemma versus_query_value_error a b st :
  isdigit a = true → isdigit b = true →
  isdecimal a && isdecimal b = false →
  versus_query api player_team matches [a; b] st = (Raise ValueError, st).
Proof.
  intros Ha Hb Hdec. unfold versus_query. cbn [length Nat.eqb negb forallb].
  rewrite Ha, Hb. cbn [andb negb orb]. unfold py_int.
  destruct (int_of_str a) as [p1|] eqn:Hp1; [|reflexivity].
  destruct (int_of_str b) as [p2|] eqn:Hp2; [|reflexivity].
  assert (isdecimal a = true) as Hda by (apply int_of_str_iff; eauto).
  assert (isdecimal b = true) as Hdb by (apply int_of_str_iff; eauto).
  by rewrite Hda, Hdb in Hdec.
Qed.

Lemma versus_outcome_cases p1 p2 st :
  (∃ w reply, versus_outcome api player_team matches p1 p2 st
              = (Return (), printed w st reply))
  ∨ (∃ w msg, versus_outcome api player_team matches p1 p2 st
              = (Raise (RequestException msg), State w (trace st))).
Proof.
  unfold versus_outcome.
  destruct (get_player api p1 (world st)) as [[pl1|msg1|msg1] w1]; [|eauto..].
  destruct (get_player api p2 w1) as [[pl2|msg2|msg2] w2]; eauto.
Qed.

Lemma handle_line_outcome line st :
  ∃ r st', handle line st = (r, st') ∧
    match r with
    | Return _ =>
        (is_blank line = true ∧ st' = st)
        ∨ (is_blank line = false
           ∧ ∃ ev, trace st' = trace st ++ [ev] ∧ answers line ev)
    | Raise e =>
        is_blank line = false
        ∧ startswith (strip line) (u "versus?") = true
        ∧ trace st' = trace st
        ∧ ((e = ValueError ∧ st' = st) ∨ ∃ msg, e = RequestException msg)
    end.
Proof.
  unfold is_blank, answers, is_query.
  destruct (decide (strip line = [])) as [Hline|Hline].
  { rewrite handle_line_blank by done. exists (Return ()), st.
    split; [done|]. left. by rewrite Hline. }
  assert (Hnb : negb (nonempty (strip line)) = false)
    by (by destruct (strip line)).
  rewrite Hnb.
  destruct (startswith (strip line) (u "stats?")) eqn:Hs.
  { rewrite handle_line_stats, stats_query_run by done.
    eexists _, _. split; [done|]. right. split; [done|]. eexists. split; [done|].
    cbn. eauto. }
  destruct (startswith (strip line) (u "versus?")) eqn:Hv.
  - rewrite handle_line_versus by done.
    set (parts := split (strip (drop 7 (strip line)))).
    destruct (negb (length parts =? 2)%nat || negb (forallb isdigit parts)) eqn:Hshape.
    + exists (Return ()), (printed (world st) st (u "0")).
      split; [unfold versus_query; by rewrite Hshape|].
      right. split; [done|]. eexists. split; [done|]. cbn. eauto.
    + destruct (good_shape _ Hshape) as (a & b & -> & Ha & Hb).
      destruct (isdecimal a && isdecimal b) eqn:Hdec.
      * apply andb_prop in Hdec as [Hda Hdb].
        apply int_of_str_iff in Hda as [p1 Hp1], Hdb as [p2 Hp2].
        rewrite (versus_query_two api player_team matches a b p1 p2 st Hp1 Hp2).
        destruct (versus_outcome_cases p1 p2 st) as [(w & reply & ->)|(w & msg & ->)].
        -- eexists _, _. split; [done|]. right. split; [done|].
           eexists. split; [done|]. cbn. eauto.
        -- eexists _, _. split; [done|]. cbn. eauto 6.
      * rewrite (versus_query_value_error a b st Ha Hb Hdec).
        eexists _, _. split; [done|]. cbn. eauto 6.
  - rewrite handle_line_other by done.
    eexists _, _. split; [done|]. right. split; [done|]. eexists. split; [done|].
    done.
Qed.

Lemma for_each_answers stdin : ∀ st st',
  for_each stdin handle st = (Return (), st') →
  ∃ evs, trace st' = trace st ++ evs
         ∧ Forall2 answers (filter (λ l, is_blank l = false) stdin) evs.
Proof.
  induction stdin as [|line stdin IH]; intros st st' Hrun.
  - injection Hrun as <-. exists []. rewrite app_nil_r. split; [done|constructor].
  - rewrite for_each_cons in Hrun.
    destruct (handle_line_outcome line st) as (r & st1 & Hl & Hr).
    rewrite Hl in Hrun. destruct r as [[]|e]; [|done].
    destruct (IH st1 st' Hrun) as (evs & Htr & Hall).
    rewrite filter_cons.
    destruct Hr as [[Hb ->]|(Hb & ev & Hev & Hans)]; rewrite Hb.
    + rewrite decide_False by done. eauto.
    + rewrite decide_True by done. exists (ev :: evs). split.
      * rewrite Htr, Hev, <- app_assoc. done.
      * by constructor.
Qed.


(** X5. When the query loop returns, it has written one event for each line
    that is not blank, in the order of the lines: a line on standard output
    for a stats? or versus? line, the notice of an unrecognized query on the
    error stream for any other line; and nothing else, so at most as many
    events as there are lines. *)
Theorem one_answer_per_line stdin st st' :
  for_each stdin handle st = (Return (), st') →
  ∃ evs, trace st' = trace st ++ evs
         ∧ Forall2 answers (filter (λ l, is_blank l = false) stdin) evs
         ∧ (length evs ≤ length stdin)%nat.
Proof.
  intros Hrun. destruct (for_each_answers stdin st st' Hrun) as (evs & Htr & Hall).
  exists evs. split; [done|]. split; [done|].
  rewrite <- (Forall2_length _ _ _ Hall). apply length_filter.
Qed.


(** X7. A versus? line with two words of digit characters, one of which is
    not a decimal literal, raises [ValueError] before any request is made
    and without writing anything; the loop stops there. *)
Theorem digit_words_raise line stdin st a b :
  startswith (strip line) (u "versus?") = true →
  split (strip (drop 7 (strip line))) = [a; b] →
  isdigit a = true → isdigit b = true →
  isdecimal a && isdecimal b = false →
  handle line st = (Raise ValueError, st)
  ∧ for_each (line :: stdin) handle st = (Raise ValueError, st).
Proof.
  intros Hv Hparts Ha Hb Hdec.
  assert (Hl : handle line st = (Raise ValueError, st)).
  { rewrite (handle_line_versus _ _ _ _ _ _ Hv), Hparts.
    by apply versus_query_value_error. }
  split; [done|]. by rewrite for_each_cons, Hl.
Qed.

End LineOutcomes.

(** ** How a run starts and ends *)

Section Startup.

Context {World : Type}.
Variable api : Api World.
Variable iter_ids : gset Z → list Z.
Variable iter_names : gset str → list str.

Implicit Types (st : state World) (stdin : list str) (teams : list team).



Lemma token_missing_iff arg env :
  (token_of arg env = None ∨ token_of arg env = Some [])
  ↔ (arg = None ∨ arg = Some []) ∧ (env = None ∨ env = Some []).
Proof.
  unfold token_of. destruct arg as [[|c t]|]; split.
  - intros H. split; [by right|done].
  - by intros [_ H].
  - intros [H|H]; done.
  - intros [[H|H] _]; done.
  - intros H. split; [by left|done].
  - by intros [_ H].
Qed.


(** X9. The three startups that are fatal.  Without a token, neither as
    argument nor in the environment, no request is made.  When the request
    for the matches fails, with or without a status, the teams are not
    requested.  When the request for the teams fails, with or without a
    status, no player is requested.  Each time one line is written on the
    error stream and [main] exits with status 1. *)
Theorem startup_failures arg env stdin st :
  ((arg = None ∨ arg = Some []) → (env = None ∨ env = Some []) →
     main api iter_ids iter_names arg env stdin st
     = (Raise (SystemExit 1),
        State (world st) (trace st ++ [Stderr no_token_message])))
  ∧ (∀ c tok, token_of arg env = Some (c :: tok) →
       (∀ msg w0,
          get_matches api (world st) = (StatusError msg, w0)
          ∨ get_matches api (world st) = (RequestFailed msg, w0) →
          main api iter_ids iter_names arg env stdin st
          = (Raise (SystemExit 1),
             State w0 (trace st ++ [Stderr (u "Failed to fetch matches: " ++ msg)])))
       ∧ (∀ ms w0 msg w1,
            get_matches api (world st) = (Fetched ms, w0) →
            get_teams api w0 = (StatusError msg, w1)
            ∨ get_teams api w0 = (RequestFailed msg, w1) →
            main api iter_ids iter_names arg env stdin st
            = (Raise (SystemExit 1),
               State w1 (trace st ++ [Stderr (u "Failed to list players: " ++ msg)])))).
Proof.
  split.
  - intros Harg Henv.
    destruct (proj2 (token_missing_iff arg env) (conj Harg Henv)) as [H|H];
      unfold main; by rewrite H.
  - intros c tok Htok. split.
    + intros msg w0 [H|H]; unfold main; rewrite Htok;
        unfold bind at 1, try_except at 1, fetch_json at 1; by rewrite H.
    + intros ms w0 msg w1 Hm [H|H]; unfold main; rewrite Htok;
        unfold bind at 1, try_except at 1, fetch_json at 1; rewrite Hm;
        unfold bind at 1, try_except at 1, list_players, bind at 1, fetch_json;
        cbn [world]; by rewrite H.
Qed.


End Startup.

(** ** The roster and the order of Python's sets *)

Section RosterOrder.

Context {World : Type}.
Variable api : Api World.

Implicit Types (st : state World) (teams : list team) (pids : list Z).

#[local] Instance str_le_antisym : AntiSymm (=) str_le.
Proof. intros a b. apply str_leb_antisym. Qed.

#[local] Instance str_le_total' : Total str_le.
Proof. intros a b. apply str_leb_total. Qed.

#[local] Instance str_le_trans' : Transitive str_le.
Proof. intros a b c. apply str_leb_trans. Qed.

(** With an API without memory, the players fetched are those of the ids
    requested that the API knows, whatever the world and the order. *)
Lemma elem_of_fetched_players pids : ∀ w w0 pl,
  stateless api →
  pl ∈ fetched_players api pids w
  ↔ ∃ pid w', pid ∈ pids ∧ get_player api pid w0 = (Fetched pl, w').
Proof.
  induction pids as [|pid pids IH]; intros w w0 pl Hapi.
  - cbn. split; [by intros H%elem_of_nil|].
    by intros (p & w' & H%elem_of_nil & _).
  - cbn [fetched_players]. pose proof (Hapi pid w w0) as Hsame.
    destruct (get_player api pid w) as [r w1] eqn:Hget.
    destruct (get_player api pid w0) as [r0 w2] eqn:Hget0.
    cbn in Hsame. subst r0.
    assert (Hrest : pl ∈ fetched_players api pids w1
                    ↔ ∃ p w', p ∈ pids ∧ get_player api p w0 = (Fetched pl, w'))
      by (by apply IH).
    assert (Hsplit : (∃ p w', p ∈ pid :: pids ∧ get_player api p w0 = (Fetched pl, w'))
                     ↔ r = Fetched pl
                       ∨ ∃ p w', p ∈ pids ∧ get_player api p w0 = (Fetched pl, w')).
    { split.
      - intros (p & w' & [->|Hp]%elem_of_cons & Hg).
        + left. rewrite Hget0 in Hg. by injection Hg as -> _.
        + right. eauto.
      - intros [->|(p & w' & Hp & Hg)].
        + exists pid, w2. split; [by left|done].
        + exists p, w'. split; [by right|done]. }
    rewrite Hsplit, <- Hrest.
    destruct r as [pl'|msg|msg].
    + rewrite elem_of_cons. split.
      * intros [->|?]; [by left|by right].
      * intros [[= ->]|?]; [by left|by right].
    + split; [by right|]. by intros [?|?].
    + split; [by right|]. by intros [?|?].
Qed.

(** X11. With an API whose answer for a player does not depend on the
    requests made before, the roster printed does not depend on the order
    in which Python iterates its sets: two runs of [list_players] that
    differ in these orders only print the same lines. *)
Theorem roster_order_independent
    (iter_ids iter_ids' : gset Z → list Z)
    (iter_names iter_names' : gset str → list str) teams w1 st :
  (∀ s, iter_ids s ≡ₚ elements s) → (∀ s, iter_ids' s ≡ₚ elements s) →
  (∀ s, iter_names s ≡ₚ elements s) → (∀ s, iter_names' s ≡ₚ elements s) →
  stateless api → players_answer api →
  get_teams api (world st) = (Fetched teams, w1) →
  ∃ emitted w2 w2',
    list_players api iter_ids iter_names st
    = (Return teams, State w2 (trace st ++ (Stdout <$> emitted)))
    ∧ list_players api iter_ids' iter_names' st
      = (Return teams, State w2' (trace st ++ (Stdout <$> emitted))).
Proof.
  intros Hids Hids' Hnames Hnames' Hstateless Hapi Ht.
  destruct (list_players_run api iter_ids iter_names teams w1 st Ht Hapi)
    as [w2 Hl].
  destruct (list_players_run api iter_ids' iter_names' teams w1 st Ht Hapi)
    as [w2' Hl'].
  eexists _, w2, w2'. split; [exact Hl|]. rewrite Hl'.
  enough (Heq : sorted_names iter_names'
                  (names_of (fetched_players api (iter_ids' (collect_ids teams)) w1))
                = sorted_names iter_names
                    (names_of (fetched_players api (iter_ids (collect_ids teams)) w1)))
    by (by rewrite Heq).
  destruct (sorted_names_spec iter_names
              (names_of (fetched_players api (iter_ids (collect_ids teams)) w1))
              Hnames) as (Hs & Hn & Hm).
  destruct (sorted_names_spec iter_names'
              (names_of (fetched_players api (iter_ids' (collect_ids teams)) w1))
              Hnames') as (Hs' & Hn' & Hm').
  apply (StronglySorted_unique str_le); [done|done|].
  apply NoDup_Permutation; [done|done|].
  intros s. rewrite Hm, Hm', !elem_of_names_of.
  assert (Hsame : ∀ pl,
    pl ∈ fetched_players api (iter_ids' (collect_ids teams)) w1
    ↔ pl ∈ fetched_players api (iter_ids (collect_ids teams)) w1).
  { intros pl.
    rewrite (elem_of_fetched_players _ w1 w1 pl Hstateless).
    rewrite (elem_of_fetched_players _ w1 w1 pl Hstateless).
    split; intros (p & w' & Hp & Hg); exists p, w'; split; try done.
    - rewrite Hids. by rewrite Hids' in Hp.
    - rewrite Hids'. by rewrite Hids in Hp. }
  split; intros [Hne (pl & Hpl & Hfull)]; (split; [done|]); exists pl;
    (split; [by apply Hsame|done]).
Qed.

(** X12. The players requested at startup are exactly the players that have
    a team in the index of the query loop. *)
Theorem roster_players_have_teams (iter_ids : gset Z → list Z) teams pid :
  (∀ s, iter_ids s ≡ₚ elements s) →
  pid ∈ iter_ids (collect_ids teams)
  ↔ is_Some (build_player_team teams !! pid).
Proof.
  intros Hids. rewrite Hids, elem_of_elements, elem_of_collect_ids.
  rewrite build_player_team_lookup, fmap_is_Some, last_is_Some. split.
  - intros (t & Ht & Hp) Hnil.
    by apply (filter_nil_not_elem_of _ _ t Hnil Hp).
  - intros Hne. destruct (filter (λ t, pid ∈ players_of t) teams) as [|t r] eqn:Hf;
      [done|].
    assert (Hin : t ∈ filter (λ t, pid ∈ players_of t) teams)
      by (rewrite Hf; by left).
    apply list_elem_of_filter in Hin as [Hp Ht]. eauto.
Qed.

End RosterOrder.

(** ** Names in quotes, players in either order *)

Section MoreQueries.

Context {World : Type}.
Variable api : Api World.
Variable team_map : gmap str Z.
Variable player_team : gmap Z Z.
Variable matches : list game.

Implicit Types (line name : str) (st : state World).

Local Abbreviation handle := (handle_line api team_map player_team matches).





(** X14. When both players are always found, a versus? line and the line
    with the two players in the other order print the same count. *)
Theorem versus_either_order line line' st st' a b p1 p2 :
  startswith (strip line) (u "versus?") = true →
  startswith (strip line') (u "versus?") = true →
  split (strip (drop 7 (strip line))) = [a; b] →
  split (strip (drop 7 (strip line'))) = [b; a] →
  int_of_str a = Some p1 → int_of_str b = Some p2 →
  (∀ w, ∃ pl w', get_player api p1 w = (Fetched pl, w')) →
  (∀ w, ∃ pl w', get_player api p2 w = (Fetched pl, w')) →
  ∃ reply w w',
    handle line st = (Return (), printed w st reply)
    ∧ handle line' st' = (Return (), printed w' st' reply).
Proof.
  intros Hv Hv' Hparts Hparts' Ha Hb H1 H2.
  rewrite (handle_line_versus _ _ _ _ _ _ Hv), Hparts.
  rewrite (handle_line_versus _ _ _ _ _ _ Hv'), Hparts'.
  rewrite (versus_query_two api player_team matches a b p1 p2 st Ha Hb).
  rewrite (versus_query_two api player_team matches b a p2 p1 st' Hb Ha).
  unfold versus_outcome.
  destruct (H1 (world st)) as (pl1 & w1 & ->).
  destruct (H2 w1) as (pl2 & w2 & ->).
  destruct (H2 (world st')) as (pl2' & w1' & ->).
  destruct (H1 w1') as (pl1' & w2' & ->).
  exists (versus_reply player_team matches p1 p2), w2, w2'.
  split; [done|]. do 2 f_equal. unfold versus_reply.
  destruct (player_team !! p1) as [t1|], (player_team !! p2) as [t2|]; try done.
  f_equal. rewrite !count_matches_eq. apply count_ext.
  intros m. unfold between. apply orb_comm.
Qed.

(** The reply for a team of the index carries a sign. *)
Lemma signed_reply_not_zero w l d :
  str_of_int w ++ u " " ++ str_of_int l ++ u " " ++ format_signed d ≠ u "0 0 0".
Proof.
  intros H.
  assert (Hin : (if d <? 0 then minus_sign else plus_sign)
                ∈ str_of_int w ++ u " " ++ str_of_int l ++ u " " ++ format_signed d).
  { rewrite format_signed_sign, !elem_of_app. do 4 right. by left. }
  rewrite H in Hin. destruct (d <? 0); vm_compute in Hin;
    repeat (apply elem_of_cons in Hin as [Hin|Hin]; [discriminate Hin|]);
    by apply elem_of_nil in Hin.
Qed.

(** X15. The line [0 0 0] is never the reply for a team of the index: a
    stats? line prints it exactly when the remainder cannot be tokenized,
    has no token, or names no team.  A team of the index that takes part in
    no match gets the reply [0 0 +0]. *)
Theorem zero_line_means_unknown line st :
  startswith (strip line) (u "stats?") = true →
  let tokens := Shlex.split (strip (drop 6 (strip line))) in
  (handle line st = (Return (), printed (world st) st (u "0 0 0"))
   ↔ ∀ name more, tokens = inr (name :: more) → team_map !! name = None)
  ∧ (∀ name more tid, tokens = inr (name :: more) →
       team_map !! name = Some tid →
       Forall (λ m, participates tid m = false) matches →
       handle line st = (Return (), printed (world st) st (u "0 0 +0"))).
Proof.
  intros Hs tokens. rewrite (handle_line_stats _ _ _ _ _ _ Hs), stats_query_run.
  fold tokens. unfold stats_reply. split.
  - split.
    + intros Hzero name more Htok. rewrite Htok in Hzero.
      destruct (team_map !! name) as [tid|]; [|done]. exfalso.
      destruct (compute_stats matches tid) as [[w l] d].
      injection Hzero as Hzero. apply app_inv_head in Hzero.
      injection Hzero as Hzero. by apply signed_reply_not_zero in Hzero.
    + intros Hnone. destruct tokens as [err|[|name more]]; try done.
      by rewrite (Hnone name more eq_refl).
  - intros name more tid -> Htid Hno. rewrite Htid, compute_stats_eq.
    assert (Hw : Forall (λ m, won tid m = false) matches).
    { eapply Forall_impl; [exact Hno|]. intros m Hm. unfold won. by rewrite Hm. }
    assert (Hl : Forall (λ m, lost tid m = false) matches).
    { eapply Forall_impl; [exact Hno|]. intros m Hm. unfold lost. by rewrite Hm. }
    rewrite (count_none _ _ Hw), (count_none _ _ Hl).
    replace (goal_difference tid matches) with 0; [done|].
    unfold goal_difference. clear Hw Hl.
    induction Hno as [|m ms Hm _ IH]; [done|]. simpl. by rewrite Hm.
Qed.

End MoreQueries.

(** ** The sample league again *)

Section MoreSampleRuns.

Import Sample.

Local Abbreviation team_map := (build_team_map teams).
Local Abbreviation player_team := (build_player_team teams).
Local Abbreviation handle := (handle_line api team_map player_team matches).

(** Two teams of the same name: the second one answers. *)
Lemma team_map_last_wins_witness :
  build_team_map [Team 1 (u "Falcons") None; Team 2 (u "Falcons") None;
                  Team 3 (u "Hawks") None] !! u "Falcons" = Some 2
  ∧ build_team_map teams !! u "Hawks" = Some 2.
Proof.
  split.
  - destruct (team_map_last_wins
                [Team 1 (u "Falcons") None; Team 2 (u "Falcons") None;
                 Team 3 (u "Hawks") None]) as (_ & _ & H & _).
    apply (H [Team 1 (u "Falcons") None] (Team 2 (u "Falcons") None)
             [Team 3 (u "Hawks") None] eq_refl).
    intros t' ->%list_elem_of_singleton. cbn. discriminate.
  - destruct (team_map_last_wins teams) as (_ & _ & _ & H).
    apply (H ltac:(vm_compute; repeat constructor;
                   rewrite ?elem_of_cons, ?elem_of_nil; intuition discriminate)
             (Team 2 (u "Hawks") (Some [12; 10; 13]))).
    right. left.
Defined.

(** Player 10 is listed by the Falcons and by the Hawks. *)
Lemma player_team_last_wins_witness :
  build_player_team teams !! 10 = Some 2.
Proof.
  destruct (player_team_last_wins teams) as (_ & _ & H).
  apply (H [Team 1 (u "Falcons") (Some [10; 11])]
           (Team 2 (u "Hawks") (Some [12; 10; 13]))
           [Team 3 (u "Old Boys") None] 10 eq_refl).
  - cbn. rewrite !elem_of_cons. lia.
  - intros t' ->%list_elem_of_singleton. cbn. apply not_elem_of_nil.
Defined.

Lemma engines_additive_witness :
  reverse matches ≡ₚ matches
  ∧ compute_stats (reverse matches) 2 = compute_stats matches 2
  ∧ count_matches (reverse matches) 1 2 = count_matches matches 1 2.
Proof.
  pose proof (reverse_Permutation matches) as Hp.
  destruct (engines_additive (reverse matches) matches 2 1 2) as (_ & _ & _ & _ & H).
  split; [exact Hp|]. exact (H Hp).
Defined.

(** The sample matches without the one of the Hawks against themselves. *)
Lemma league_totals_witness :
  total (wins_of (take 4 matches) <$> [1; 2; 3])
  = total (losses_of (take 4 matches) <$> [1; 2; 3])
  ∧ total (diff_of (take 4 matches) <$> [1; 2; 3]) = 0.
Proof.
  apply league_totals.
  - repeat (apply NoDup_cons; split;
            [rewrite ?elem_of_cons, ?elem_of_nil; lia|]).
    apply NoDup_nil_2.
  - repeat constructor; cbn; rewrite ?elem_of_cons; lia.
Defined.

Lemma one_answer_per_line_witness :
  ∃ evs,
    [Stdout (u "2 0 +6"); Stderr (u "Unrecognized query"); Stdout (u "2")] = evs
    ∧ Forall2 answers [u "stats? Falcons"; u "hello"; u "versus? 10 11"] evs.
Proof.
  destruct (one_answer_per_line api team_map player_team matches
              [u "stats? Falcons"; u "  "; u "hello"; u "versus? 10 11"]
              start
              (State 2%nat [Stdout (u "2 0 +6"); Stderr (u "Unrecognized query");
                            Stdout (u "2")])
              eq_refl) as (evs & Htr & Hall & _).
  exists evs. split; [exact Htr|exact Hall].
Defined.


Lemma digit_words_raise_witness :
  for_each [u "versus? 1" ++ [superscript_two] ++ u " 3"; u "stats? Hawks"]
    handle start
  = (Raise ValueError, start).
Proof.
  apply (digit_words_raise api team_map player_team matches
           (u "versus? 1" ++ [superscript_two] ++ u " 3") [u "stats? Hawks"]
           start (u "1" ++ [superscript_two]) (u "3")
           eq_refl eq_refl eq_refl eq_refl eq_refl).
Defined.


Lemma startup_failures_witness :
  main api elements elements (Some []) None [u "stats? Falcons"] start
  = (Raise (SystemExit 1), State 0%nat [Stderr no_token_message]).
Proof.
  destruct (startup_failures api elements elements (Some []) None
              [u "stats? Falcons"] start) as [H _].
  apply H; [by right|by left].
Defined.


Lemma sample_stateless : stateless api.
Proof. intros pid w w'. reflexivity. Defined.

(** The sets iterated in the order of [elements] and in the reverse one. *)
Lemma roster_order_independent_witness :
  ∃ emitted w w',
    list_players api elements elements (State 1%nat [])
    = (Return teams, State w (Stdout <$> emitted))
    ∧ list_players api (λ s, reverse (elements s)) (λ s, reverse (elements s))
        (State 1%nat [])
      = (Return teams, State w' (Stdout <$> emitted)).
Proof.
  apply (roster_order_independent api
           elements (λ s, reverse (elements s))
           elements (λ s, reverse (elements s)) teams 2%nat (State 1%nat [])
           (λ s, reflexivity _) (λ s, reverse_Permutation _)
           (λ s, reflexivity _) (λ s, reverse_Permutation _)
           sample_stateless sample_players_answer eq_refl).
Defined.

Lemma roster_players_have_teams_witness :
  13 ∈ elements (collect_ids teams) ∧ 14 ∉ elements (collect_ids teams).
Proof.
  split.
  - apply (roster_players_have_teams elements teams 13 (λ s, reflexivity _)).
    by exists 2.
  - intros H.
    apply (roster_players_have_teams elements teams 14 (λ s, reflexivity _)) in H.
    destruct H as [t H]. vm_compute in H. discriminate H.
Defined.


Lemma versus_either_order_witness :
  ∃ reply w w',
    handle (u "versus? 10 11") start = (Return (), printed w start reply)
    ∧ handle (u "versus? 11 10") start = (Return (), printed w' start reply).
Proof.
  apply (versus_either_order api team_map player_team matches
           (u "versus? 10 11") (u "versus? 11 10") start start
           (u "10") (u "11") 10 11
           eq_refl eq_refl eq_refl eq_refl eq_refl eq_refl).
  - intros w. by eexists _, _.
  - intros w. by eexists _, _.
Defined.

(** Team 4 is in the index and plays no match. *)
Lemma zero_line_means_unknown_witness :
  handle_line api (<[u "Rookies" := 4]> team_map) player_team matches
    (u "stats? Rookies") start
  = (Return (), State 0%nat [Stdout (u "0 0 +0")])
  ∧ handle (u "stats? Rookies") start
    = (Return (), State 0%nat [Stdout (u "0 0 0")]).
Proof.
  split.
  - destruct (zero_line_means_unknown api (<[u "Rookies" := 4]> team_map)
                player_team matches (u "stats? Rookies") start eq_refl) as [_ H].
    apply (H (u "Rookies") [] 4 eq_refl eq_refl). repeat constructor.
  - destruct (zero_line_means_unknown api team_map player_team matches
                (u "stats? Rookies") start eq_refl) as [H _].
    apply H. intros name more [= <- <-]. reflexivity.
Defined.

End MoreSampleRuns.
